(** * mpi-sppy: the Lagrangian outer-bound spoke and the x-hat evaluator

    A shallow embedding of
      - [mpisppy/cylinders/lagrangian_bounder.py]
          ([_LagrangianMixin], [LagrangianOuterBound]) and
      - [mpisppy/utils/xhat_eval.py] ([Xhat_Eval]),
    together with the properties the design document states about them.

    Python floats are idealised as exact rationals ([Qc], the canonical
    rationals, so that equality of bounds is Leibniz equality).  Python
    dictionaries are [gmap]s, Python objects are records, and a method
    that mutates [self], may raise, and calls out to collaborators is a
    computation in a small state / exception / event-log monad. *)

From Stdlib Require Import QArith Qcanon Qround.
From stdpp Require Import base numbers option list strings gmap.

Open Scope string_scope.
Open Scope list_scope.

(** ** Python values, exceptions, and the effect monad *)

(** The values an option dictionary holds. *)
Inductive PyVal :=
| PyNone
| PyBool (b : bool)
| PyInt (z : Z)
| PyFloat (q : Qc)
| PyStr (s : string).

(** Python truth value testing ([if v:]). *)
Definition truthy (v : PyVal) : bool :=
  match v with
  | PyNone => false
  | PyBool b => b
  | PyInt z => negb (Z.eqb z 0)
  | PyFloat q => negb (bool_decide (q = Q2Qc 0))
  | PyStr s => negb (bool_decide (s = ""))
  end.

Inductive Exn :=
| KeyError (key : string)
| AttributeError (attr : string)
| TypeError (msg : string)
| RuntimeError (msg : string)
| ValueError (msg : string)
| UnboundLocalError (name : string).

(** How a call ends: it returns, it raises, or the fuel given to a
    [while] loop ran out before the loop condition became false. *)
Inductive Outcome (A : Type) :=
| Ret (a : A)
| Raise (e : Exn)
| OutOfFuel.
Arguments Ret {A} a.
Arguments Raise {A} e.
Arguments OutOfFuel {A}.

(** A computation over state [St] that logs events of type [Ev]: the
    state survives an exception, as the mutated Python object does. *)
Definition M (St Ev A : Type) : Type := St → Outcome A * St * list Ev.

Section Monad.
Context {St Ev : Type}.

Definition ret {A} (a : A) : M St Ev A := λ s, (Ret a, s, []).

Definition bind {A B} (m : M St Ev A) (k : A → M St Ev B) : M St Ev B :=
  λ s, match m s with
       | (Ret a, s1, e1) =>
           match k a s1 with (o, s2, e2) => (o, s2, e1 ++ e2) end
       | (Raise e, s1, e1) => (Raise e, s1, e1)
       | (OutOfFuel, s1, e1) => (OutOfFuel, s1, e1)
       end.

Definition raise {A} (e : Exn) : M St Ev A := λ s, (Raise e, s, []).
Definition out_of_fuel {A} : M St Ev A := λ s, (OutOfFuel, s, []).
Definition gets {A} (f : St → A) : M St Ev A := λ s, (Ret (f s), s, []).
Definition modify (f : St → St) : M St Ev unit := λ s, (Ret tt, f s, []).
Definition emit (e : Ev) : M St Ev unit := λ s, (Ret tt, s, [e]).
Definition when (b : bool) (m : M St Ev unit) : M St Ev unit :=
  if b then m else ret tt.

Definition outcome {A} (r : Outcome A * St * list Ev) : Outcome A := r.1.1.
Definition state {A} (r : Outcome A * St * list Ev) : St := r.1.2.
Definition events {A} (r : Outcome A * St * list Ev) : list Ev := r.2.
End Monad.

Notation "'let!' x ':=' m 'in' k" := (bind m (λ x, k))
  (at level 10, x name, m at level 100, k at level 200,
   format "'[v' 'let!'  x  ':='  m  'in' '/' k ']'").
Notation "m >> k" := (bind m (λ _, k))
  (at level 100, k at level 200, right associativity).

(** [d[key]]: a [KeyError] when the key is absent. *)
Definition getitem {St Ev} (d : gmap string PyVal) (key : string) : M St Ev PyVal :=
  match d !! key with
  | Some v => ret v
  | None => raise (KeyError key)
  end.

(** [needle in hay] on strings. *)
Fixpoint is_prefix (p s : string) : bool :=
  match p, s with
  | EmptyString, _ => true
  | String a p', String b s' => if Ascii.eqb a b then is_prefix p' s' else false
  | String _ _, EmptyString => false
  end.

Fixpoint str_contains (needle hay : string) : bool :=
  is_prefix needle hay ||
  match hay with
  | EmptyString => false
  | String _ hay' => str_contains needle hay'
  end.

(** [needle in v] for a string [needle]: only a [str] among the values
    of [PyVal] supports the membership test. *)
Definition py_in {St Ev} (needle : string) (v : PyVal) : M St Ev bool :=
  match v with
  | PyStr s => ret (str_contains needle s)
  | _ => raise (TypeError "argument is not iterable")
  end.

(** *** A Hoare logic for runs that may raise

    [hoare P Q m R]: from a state satisfying [P], every event [m] logs
    satisfies [Q], and if [m] returns [a] the final state satisfies
    [R a]. *)

Definition hoare {St Ev A} (P : St → Prop) (Q : Ev → Prop) (m : M St Ev A)
    (R : A → St → Prop) : Prop :=
  ∀ s, P s →
    Forall Q (events (m s)) ∧
    ∀ a, outcome (m s) = Ret a → R a (state (m s)).


(** ** The Lagrangian outer-bound spoke ([lagrangian_bounder.py]) *)

Module Lagrangian.

(** The two members of [sputils.WarmstartStatus] the spoke passes. *)
Inductive WarmstartStatus := USER_SOLUTION | PRIOR_SOLUTION.

(** A local relaxed subproblem.  The solver is an external collaborator:
    [relaxed_optimum w] is the outcome of solving the subproblem under the
    dual weights [w], [None] when the solve yields no usable optimum (for
    instance an infeasible relaxation).  [outer_bound] is the result the
    last solve left on the subproblem. *)
Record Subproblem := {
  name : string;
  _mpisppy_probability : Qc;
  relaxed_optimum : list Qc → option Qc;
  outer_bound : option Qc;
}.

(** The algorithmic state of [self.opt] that the spoke, the hub's updates
    and the extension hooks read and write. *)
Record PHState := {
  W : list Qc;
  xbars : list Qc;
  _PHIter : Z;
  current_solver_options : PyVal;
  iterk_solver_options : PyVal;
}.

(** An extension callback acts on the algorithmic state. *)
Abbreviation Hook := (PHState → PHState).

(** [self.opt].  [extensions] is the registered extension class ([None]
    when the caller registered none); [extobject] is the attribute table of
    the extension object, so that [hasattr] is a lookup. *)
Record Opt := {
  options : gmap string PyVal;
  extensions : option string;
  extobject : gmap string Hook;
  ph : PHState;
  local_subproblems : list Subproblem;
}.

(** [self]: the spoke.  [kill_reads] and [Ws_reads] count the reads of the
    hub's termination flag and weight channel; [stdout] is what was printed. *)
Record Spoke := {
  opt : Opt;
  verbose : PyVal;
  trivial_bound : option Qc;
  final_bound : option Qc;
  bound : option Qc;
  localWs : list Qc;
  kill_reads : nat;
  Ws_reads : nat;
  stdout : list string;
}.

(** The calls the spoke makes on its collaborators, in program order. *)
Inductive Event :=
| Ev_PH_Prep (attach_prox : bool)
| Ev_reenable_W
| Ev_create_solvers
| Ev_receive_nonant_bounds
| Ev_solve_loop (solver_options tee verbose : PyVal) (need_solution : bool)
    (warmstart : WarmstartStatus) (weights : list Qc)
| Ev_hook (hook : string)
| Ev_send_bound (value : option Qc)
| Ev_got_kill_signal (flag : bool)
| Ev_update_Ws (new : option (list Qc))
| Ev_W_from_flat_list (flat : list Qc)
| Ev_Compute_Xbar
| Ev_Update_W.

(** The hub and the numerical kernel, as seen from the spoke: the value
    of the termination flag at the n-th read, the weight vector (if a new
    one is there) at the n-th read of the weight channel, and the two
    steps of a subgradient update. *)
Record Env := {
  kill_signal : nat → bool;
  published_Ws : nat → option (list Qc);
  Compute_Xbar : list Subproblem → PHState → PHState;
  Update_W : list Subproblem → PHState → PHState;
}.

(** *** Field updates *)

Definition set_W (w : list Qc) (p : PHState) : PHState :=
  {| W := w; xbars := xbars p; _PHIter := _PHIter p;
     current_solver_options := current_solver_options p;
     iterk_solver_options := iterk_solver_options p |}.

Definition set_PHIter (i : Z) (p : PHState) : PHState :=
  {| W := W p; xbars := xbars p; _PHIter := i;
     current_solver_options := current_solver_options p;
     iterk_solver_options := iterk_solver_options p |}.

Definition set_current_solver_options (o : PyVal) (p : PHState) : PHState :=
  {| W := W p; xbars := xbars p; _PHIter := _PHIter p;
     current_solver_options := o;
     iterk_solver_options := iterk_solver_options p |}.

Definition with_ph (f : PHState → PHState) (o : Opt) : Opt :=
  {| options := options o; extensions := extensions o;
     extobject := extobject o; ph := f (ph o);
     local_subproblems := local_subproblems o |}.

Definition with_subproblems (f : list Subproblem → list Subproblem) (o : Opt) : Opt :=
  {| options := options o; extensions := extensions o;
     extobject := extobject o; ph := ph o;
     local_subproblems := f (local_subproblems o) |}.

Definition set_extobject (e : gmap string Hook) (o : Opt) : Opt :=
  {| options := options o; extensions := extensions o;
     extobject := e; ph := ph o;
     local_subproblems := local_subproblems o |}.

Definition with_opt (f : Opt → Opt) (s : Spoke) : Spoke :=
  {| opt := f (opt s); verbose := verbose s; trivial_bound := trivial_bound s;
     final_bound := final_bound s; bound := bound s; localWs := localWs s;
     kill_reads := kill_reads s; Ws_reads := Ws_reads s; stdout := stdout s |}.

Definition set_verbose (v : PyVal) (s : Spoke) : Spoke :=
  {| opt := opt s; verbose := v; trivial_bound := trivial_bound s;
     final_bound := final_bound s; bound := bound s; localWs := localWs s;
     kill_reads := kill_reads s; Ws_reads := Ws_reads s; stdout := stdout s |}.

Definition set_trivial_bound (b : option Qc) (s : Spoke) : Spoke :=
  {| opt := opt s; verbose := verbose s; trivial_bound := b;
     final_bound := final_bound s; bound := bound s; localWs := localWs s;
     kill_reads := kill_reads s; Ws_reads := Ws_reads s; stdout := stdout s |}.

Definition set_final_bound (b : option Qc) (s : Spoke) : Spoke :=
  {| opt := opt s; verbose := verbose s; trivial_bound := trivial_bound s;
     final_bound := b; bound := bound s; localWs := localWs s;
     kill_reads := kill_reads s; Ws_reads := Ws_reads s; stdout := stdout s |}.

Definition set_bound (b : option Qc) (s : Spoke) : Spoke :=
  {| opt := opt s; verbose := verbose s; trivial_bound := trivial_bound s;
     final_bound := final_bound s; bound := b; localWs := localWs s;
     kill_reads := kill_reads s; Ws_reads := Ws_reads s; stdout := stdout s |}.

Definition set_localWs (w : list Qc) (s : Spoke) : Spoke :=
  {| opt := opt s; verbose := verbose s; trivial_bound := trivial_bound s;
     final_bound := final_bound s; bound := bound s; localWs := w;
     kill_reads := kill_reads s; Ws_reads := Ws_reads s; stdout := stdout s |}.

Definition set_kill_reads (n : nat) (s : Spoke) : Spoke :=
  {| opt := opt s; verbose := verbose s; trivial_bound := trivial_bound s;
     final_bound := final_bound s; bound := bound s; localWs := localWs s;
     kill_reads := n; Ws_reads := Ws_reads s; stdout := stdout s |}.

Definition set_Ws_reads (n : nat) (s : Spoke) : Spoke :=
  {| opt := opt s; verbose := verbose s; trivial_bound := trivial_bound s;
     final_bound := final_bound s; bound := bound s; localWs := localWs s;
     kill_reads := kill_reads s; Ws_reads := n; stdout := stdout s |}.

Definition print (line : string) (s : Spoke) : Spoke :=
  {| opt := opt s; verbose := verbose s; trivial_bound := trivial_bound s;
     final_bound := final_bound s; bound := bound s; localWs := localWs s;
     kill_reads := kill_reads s; Ws_reads := Ws_reads s;
     stdout := stdout s ++ [line] |}.

(** *** Collaborators of the spoke

    [PHBase], [SPOpt] and the [Spoke] base classes are not part of the
    two files embedded here; what the spoke needs of them is modelled
    below, each as the call it is (an event) and its effect on the state. *)

Abbreviation Sp := (M Spoke Event).

(** [self.opt.options[key]]. *)
Definition opt_option (key : string) : Sp PyVal :=
  let! d := gets (λ s, options (opt s)) in
  getitem d key.

Definition modify_ph (f : PHState → PHState) : Sp unit :=
  modify (with_opt (with_ph f)).

(** Modelled from the spec: [PH_Prep(attach_prox=False)], [_reenable_W]
    and [_create_solvers] of the optimizer are the one-time local setup of
    the relaxed subproblems; the subproblems themselves are part of the
    state from the start. *)
Definition PH_Prep (attach_prox : bool) : Sp unit := emit (Ev_PH_Prep attach_prox).
Definition _reenable_W : Sp unit := emit Ev_reenable_W.
Definition _create_solvers : Sp unit := emit Ev_create_solvers.

(** Modelled from the spec: [receive_nonant_bounds] of the spoke base
    class takes over tighter variable bounds if the hub sent any. *)
Definition receive_nonant_bounds : Sp unit := emit Ev_receive_nonant_bounds.

(** Solving one subproblem under the weights [w]. *)
Definition solve (w : list Qc) (sp : Subproblem) : Subproblem :=
  {| name := name sp; _mpisppy_probability := _mpisppy_probability sp;
     relaxed_optimum := relaxed_optimum sp;
     outer_bound := relaxed_optimum sp w |}.

(** Modelled from the spec: [SPOpt.solve_loop] re-solves each local
    relaxed subproblem, independently, under the weights in force. *)
Definition solve_loop (solver_options : PyVal) (dtiming gripe : bool)
    (tee verbose : PyVal) (need_solution : bool) (warmstart : WarmstartStatus)
    : Sp unit :=
  let! w := gets (λ s, W (ph (opt s))) in
  emit (Ev_solve_loop solver_options tee verbose need_solution warmstart w) >>
  modify (with_opt (with_subproblems (map (solve w)))).

(** Modelled from the spec: [SPOpt.Ebound] accumulates the
    probability-weighted sum of the subproblems' optima; a subproblem
    without a usable optimum leaves no usable bound. *)
Fixpoint Ebound_acc (acc : Qc) (sps : list Subproblem) : option Qc :=
  match sps with
  | [] => Some acc
  | sp :: rest =>
      match outer_bound sp with
      | Some b => Ebound_acc (acc + _mpisppy_probability sp * b)%Qc rest
      | None => None
      end
  end.

Definition Ebound (verbose : PyVal) : Sp (option Qc) :=
  gets (λ s, Ebound_acc (Q2Qc 0) (local_subproblems (opt s))).

(** Modelled from the spec: [W_from_flat_list] adopts a flat weight list
    as the local per-scenario dual weights. *)
Definition W_from_flat_list (flat : list Qc) : Sp unit :=
  emit (Ev_W_from_flat_list flat) >>
  modify_ph (set_W flat).

(** Modelled from the spec: [send_bound] transmits a report to the hub;
    the value sent is the spoke's current bound ([self.bound]) from then
    on. *)
Definition send_bound (value : option Qc) : Sp unit :=
  modify (set_bound value) >>
  emit (Ev_send_bound value).

(** Calling the method [hook] of the extension object: an
    [AttributeError] if the object has no such attribute. *)
Definition call_hook (hook : string) : Sp unit :=
  let! obj := gets (λ s, extobject (opt s)) in
  match obj !! hook with
  | Some h => emit (Ev_hook hook) >> modify_ph h
  | None => raise (AttributeError hook)
  end.

Section Spoke.
Variable env : Env.

(** Modelled from the spec: [got_kill_signal] reads the hub's
    termination flag. *)
Definition got_kill_signal : Sp bool :=
  let! n := gets kill_reads in
  modify (set_kill_reads (S n)) >>
  emit (Ev_got_kill_signal (kill_signal env n)) >>
  ret (kill_signal env n).

(** Modelled from the spec: [update_Ws] polls the weight channel; when
    a new version is there it becomes [self.localWs]. *)
Definition update_Ws : Sp bool :=
  let! n := gets Ws_reads in
  modify (set_Ws_reads (S n)) >>
  emit (Ev_update_Ws (published_Ws env n)) >>
  match published_Ws env n with
  | Some ws => modify (set_localWs ws) >> ret true
  | None => ret false
  end.

(** Modelled from the spec: [Compute_Xbar] and [Update_W] of [PHBase]
    recompute the consensus point and the weights from the spoke's own
    previous solutions. *)
Definition opt_Compute_Xbar (verbose : PyVal) : Sp unit :=
  emit Ev_Compute_Xbar >>
  let! sps := gets (λ s, local_subproblems (opt s)) in
  modify_ph (Compute_Xbar env sps).

Definition opt_Update_W (verbose : PyVal) : Sp unit :=
  emit Ev_Update_W >>
  let! sps := gets (λ s, local_subproblems (opt s)) in
  modify_ph (Update_W env sps).

(** *** [_LagrangianMixin] *)

Definition lagrangian_prep : Sp unit :=
  PH_Prep false >>
  _reenable_W >>
  _create_solvers.

Definition ipopt_warning : string :=
  " WARNING: An ipopt solver will not give outer bounds".

(** [teeme = False], overwritten by the option ["tee-rank0-solves"]
    when the dictionary has that key. *)
Definition tee_rank0_solves : Sp PyVal :=
  let! has_tee := gets (λ s, bool_decide (is_Some (options (opt s) !! "tee-rank0-solves"))) in
  if has_tee then opt_option "tee-rank0-solves" else ret (PyBool false).

Definition lagrangian (need_solution : bool) (warmstart : WarmstartStatus)
    : Sp (option Qc) :=
  receive_nonant_bounds >>
  let! verbose := opt_option "verbose" in
  let! solver_name := opt_option "solver_name" in
  let! is_ipopt := py_in "ipopt" solver_name in
  when is_ipopt (modify (print ipopt_warning)) >>
  let! teeme := tee_rank0_solves in
  let! solver_options := gets (λ s, current_solver_options (ph (opt s))) in
  solve_loop solver_options false true teeme verbose need_solution warmstart >>
  Ebound verbose.

Definition finalize : Sp (option Qc) :=
  let! b := gets bound in
  modify (set_final_bound b) >>
  let! registered := gets (λ s, bool_decide (extensions (opt s) ≠ None)) in
  let! has_hook := gets (λ s, bool_decide (is_Some (extobject (opt s) !! "post_everything"))) in
  when (registered && has_hook) (call_hook "post_everything") >>
  gets final_bound.

(** *** [LagrangianOuterBound] *)

Definition _set_weights_and_solve (need_solution : bool)
    (warmstart : WarmstartStatus) : Sp (option Qc) :=
  let! ws := gets localWs in
  W_from_flat_list ws >>
  lagrangian need_solution warmstart.

Definition do_while_waiting_for_new_Ws (need_solution : bool)
    (warmstart : WarmstartStatus) : Sp unit :=
  let! flag := gets (λ s, default (PyBool false)
                            (options (opt s) !! "subgradient_while_waiting")) in
  when (truthy flag)
    (let! v := gets verbose in
     opt_Compute_Xbar v >>
     let! v := gets verbose in
     opt_Update_W v >>
     let! bound := lagrangian need_solution warmstart in
     match bound with
     | Some _ => send_bound bound
     | None => ret tt
     end).

(** Lines 75-95 of [main]: everything before the [while] loop. *)
Definition main_iter0 (need_solution : bool) : Sp bool :=
  let! v := opt_option "verbose" in
  modify (set_verbose v) >>
  let! extensions := gets (λ s, bool_decide (extensions (opt s) ≠ None)) in
  lagrangian_prep >>
  when extensions (call_hook "pre_iter0") >>
  modify_ph (set_PHIter 0) >>
  let! tb := lagrangian need_solution USER_SOLUTION in
  modify (set_trivial_bound tb) >>
  when extensions (call_hook "post_iter0") >>
  modify_ph (λ p, set_PHIter (_PHIter p + 1) p) >>
  modify_ph (λ p, set_current_solver_options (iterk_solver_options p) p) >>
  let! tb := gets trivial_bound in
  send_bound tb >>
  when extensions (call_hook "post_iter0_after_sync") >>
  ret extensions.

(** The body of the [while] loop (lines 98-110). *)
Definition main_loop_body (extensions need_solution : bool) : Sp unit :=
  let! new := update_Ws in
  if new then
    when extensions (call_hook "miditer") >>
    let! bound := _set_weights_and_solve need_solution PRIOR_SOLUTION in
    when extensions (call_hook "enditer") >>
    match bound with
    | Some _ => send_bound bound
    | None => ret tt
    end >>
    when extensions (call_hook "enditer_after_sync") >>
    modify_ph (λ p, set_PHIter (_PHIter p + 1) p)
  else
    do_while_waiting_for_new_Ws need_solution PRIOR_SOLUTION.

(** [while not self.got_kill_signal(): ...], at most [fuel] iterations. *)
Fixpoint main_loop (fuel : nat) (extensions need_solution : bool) : Sp unit :=
  let! killed := got_kill_signal in
  if killed then ret tt
  else
    match fuel with
    | O => out_of_fuel
    | S fuel' =>
        main_loop_body extensions need_solution >>
        main_loop fuel' extensions need_solution
    end.

Definition main (fuel : nat) (need_solution : bool) : Sp unit :=
  let! extensions := main_iter0 need_solution in
  main_loop fuel extensions need_solution.

(** The life of the spoke: [main], then [finalize]. *)
Definition run_spoke (fuel : nat) (need_solution : bool) : Sp (option Qc) :=
  main fuel need_solution >>
  finalize.

End Spoke.

(** *** Concrete spokes

    The scenario of the design document: two local subproblems with
    probabilities 0.6 and 0.4 whose relaxed optima under the published
    weights [5, -3] are 10 and 20. *)

Definition qc (n : Z) (d : positive) : Qc := Q2Qc (n # d).

Definition sum_Qc (l : list Qc) : Qc := foldr Qcplus (Q2Qc 0) l.

(** The probability-weighted expectation of a list of objective values. *)
Definition expectation (probs objs : list Qc) : Qc :=
  sum_Qc (zip_with Qcmult probs objs).

Definition scen0 : Subproblem :=
  {| name := "scen0"; _mpisppy_probability := qc 6 10;
     relaxed_optimum := λ w, Some (qc 5 1 * sum_Qc w)%Qc;
     outer_bound := None |}.

Definition scen1 : Subproblem :=
  {| name := "scen1"; _mpisppy_probability := qc 4 10;
     relaxed_optimum := λ w, Some (qc 10 1 * sum_Qc w)%Qc;
     outer_bound := None |}.

(** A subproblem whose relaxation is infeasible whatever the weights. *)
Definition scen_infeasible : Subproblem :=
  {| name := "scen_infeasible"; _mpisppy_probability := qc 1 1;
     relaxed_optimum := λ _, None;
     outer_bound := None |}.

Definition example_ph : PHState :=
  {| W := [qc 0 1; qc 0 1]; xbars := [qc 0 1; qc 0 1]; _PHIter := 0;
     current_solver_options := PyNone; iterk_solver_options := PyNone |}.

Definition example_options : gmap string PyVal :=
  <["verbose" := PyBool false]> (<["solver_name" := PyStr "cplex"]> ∅).

Definition example_spoke (o : Opt) : Spoke :=
  {| opt := o; verbose := PyNone; trivial_bound := None; final_bound := None;
     bound := None; localWs := []; kill_reads := 0; Ws_reads := 0;
     stdout := [] |}.

(** No extension registered. *)
Definition plain_spoke : Spoke :=
  example_spoke
    {| options := example_options; extensions := None; extobject := ∅;
       ph := example_ph; local_subproblems := [scen0; scen1] |}.

(** The same, with the idle-time subgradient step switched on. *)
Definition subgradient_spoke : Spoke :=
  example_spoke
    {| options := <["subgradient_while_waiting" := PyBool true]> example_options;
       extensions := None; extobject := ∅;
       ph := example_ph; local_subproblems := [scen0; scen1] |}.

(** No extension registered, and an infeasible relaxation. *)
Definition infeasible_spoke : Spoke :=
  example_spoke
    {| options := example_options; extensions := None; extobject := ∅;
       ph := example_ph; local_subproblems := [scen_infeasible] |}.



(** A hub that publishes the weights [5, -3] once and raises the
    termination flag after the first pass through the loop. *)
Definition example_hub : Env :=
  {| kill_signal := λ n, match n with O => false | S _ => true end;
     published_Ws := λ n, match n with O => Some [qc 5 1; qc (-3) 1] | S _ => None end;
     Compute_Xbar := λ _ p, p;
     Update_W := λ _ p, p |}.

(** A hub that has raised the flag before the spoke's first poll. *)
Definition stopped_hub : Env :=
  {| kill_signal := λ _, true;
     published_Ws := λ _, None;
     Compute_Xbar := λ _ p, p;
     Update_W := λ _ p, p |}.

(** A hub that publishes nothing and raises the flag after one poll. *)
Definition silent_hub : Env :=
  {| kill_signal := λ n, match n with O => false | S _ => true end;
     published_Ws := λ _, None;
     Compute_Xbar := λ _ p, p;
     Update_W := λ _ p, p |}.

(** *** Notions used to state the properties of the spoke *)

Definition tee_of (o : gmap string PyVal) : PyVal :=
  default (PyBool false) (o !! "tee-rank0-solves").

Definition add_stdout (lines : list string) (s : Spoke) : Spoke :=
  {| opt := opt s; verbose := verbose s; trivial_bound := trivial_bound s;
     final_bound := final_bound s; bound := bound s; localWs := localWs s;
     kill_reads := kill_reads s; Ws_reads := Ws_reads s;
     stdout := stdout s ++ lines |}.

Definition after_lagrangian (sn : string) (s : Spoke) : Spoke :=
  with_opt (with_subproblems (map (solve (W (ph (opt s))))))
    (add_stdout (if str_contains "ipopt" sn then [ipopt_warning] else []) s).

Definition registered (s : Spoke) : bool :=
  bool_decide (extensions (opt s) ≠ None).

(** The hooks [main] calls on a registered extension object. *)
Definition main_hooks : list string :=
  ["pre_iter0"; "post_iter0"; "post_iter0_after_sync";
   "miditer"; "enditer"; "enditer_after_sync"].

(** The option dictionary has what [main] and [lagrangian] index, and a
    registered extension object has the hooks [main] calls. *)
Record ready (r : bool) (s : Spoke) : Prop := {
  ready_verbose : is_Some (options (opt s) !! "verbose");
  ready_solver : ∃ sn, options (opt s) !! "solver_name" = Some (PyStr sn);
  ready_hooks : r = true → Forall (λ h, is_Some (extobject (opt s) !! h)) main_hooks;
}.

(** What no method of the spoke changes. *)
Definition same_config (s s' : Spoke) : Prop :=
  options (opt s') = options (opt s) ∧
  extensions (opt s') = extensions (opt s) ∧
  extobject (opt s') = extobject (opt s).

Definition hook_events (r : bool) (hook : string) : list Event :=
  if r then [Ev_hook hook] else [].

(** The algorithmic state after the hook [hook] ran, if it does run. *)
Definition ph_after_hook (r : bool) (hook : string) (s : Spoke) : PHState :=
  if r then
    match extobject (opt s) !! hook with
    | Some h => h (ph (opt s))
    | None => ph (opt s)
    end
  else ph (opt s).

Definition send_events (b : option Qc) : list Event :=
  match b with
  | Some _ => [Ev_send_bound b]
  | None => []
  end.

(** The idle-time action. *)
Definition subgradient_on (s : Spoke) : bool :=
  truthy (default (PyBool false) (options (opt s) !! "subgradient_while_waiting")).

(** [finalize] never raises: the hook is probed before it is called. *)
Definition has_post_everything (s : Spoke) : bool :=
  bool_decide (is_Some (extobject (opt s) !! "post_everything")).

Definition not_kill (e : Event) : Prop := e ≠ Ev_got_kill_signal true.

Abbreviation quiet m := (hoare (λ _ : Spoke, True) not_kill m (λ _ _, True)).

Definition report_of (e : Event) : option (option Qc) :=
  match e with
  | Ev_send_bound v => Some v
  | _ => None
  end.

(** The values passed to [send_bound], in order. *)
Definition reports (evs : list Event) : list (option Qc) := omap report_of evs.

(** [self.bound] follows the reports: after [m] it is the last value
    [m] reported, or what it was if [m] reported nothing. *)
Definition tracks {A} (m : Sp A) : Prop :=
  ∀ s, bound (state (m s)) = default (bound s) (last (reports (events (m s)))).

(** If [m] returns, it has reported. *)
Definition reporting {A} (m : Sp A) : Prop :=
  ∀ s a, outcome (m s) = Ret a → reports (events (m s)) ≠ [].





(** *** Hooks that the extension object may lack *)







End Lagrangian.

(** ** The x-hat evaluator ([xhat_eval.py]) *)

Module Xhat.

(** A decision variable subject to non-anticipativity.  [surrogate] says
    whether the variable is among the surrogate nonants of its node. *)
Record Var := {
  vname : string;
  _value : Qc;
  fixed : bool;
  is_binary : bool;
  is_integer : bool;
  surrogate : bool;
}.

(** A node of the scenario tree as a scenario sees it. *)
Record Node := {
  name : string;
  stage : Z;
  nonant_vardata_list : list Var;
}.

(** A scenario (or a bundle) model.  The solver is an external
    collaborator: [solver nodes] is the optimal objective value of the
    model with its nonants as in [nodes], [None] when it is infeasible.
    [objective] is the current value of the saved objective expression,
    [feasible] the feasibility indicator the last solve left, and
    [persistent] whether the attached solver plug-in is persistent. *)
Record Scenario := {
  _mpisppy_probability : Qc;
  _mpisppy_node_list : list Node;
  persistent : bool;
  solver : list Node → option Qc;
  objective : Qc;
  feasible : bool;
}.

(** A cache of nonant values: for each node name, the values of its
    variables, or [None]. *)
Abbreviation Cache := (gmap string (option (list Qc))).

(** [self].  Models are objects: [models] holds them by name, and the
    dictionaries [local_scenarios] and [local_subproblems] are the lists
    of their keys, so that a scenario that is also a subproblem (no
    bundling) is one object.  [objs_dict] is [None] as long as the
    attribute does not exist.  [mpicomm] holds, for the collective
    reductions to come, what the other ranks contribute. *)
Record Xhat_Eval := {
  options : gmap string PyVal;
  verbose : PyVal;
  _subproblems_solvers_created : bool;
  Ag : PyVal;
  bundling : bool;
  models : gmap string Scenario;
  local_scenarios : list string;
  local_subproblems : list string;
  names_in_bundles : gmap Z (list string);
  objs_dict : option (gmap string Qc);
  current_solver_options : PyVal;
  mpicomm : list Qc;
}.

(** The calls on the base class, the solver plug-ins and MPI. *)
Inductive Event :=
| Ev_create_solvers (presolve : bool)
| Ev_fix_nonants (cache : Cache)
| Ev_solve_one (solver_options : PyVal) (k : string)
    (dtiming gripe tee : bool) (verbose : PyVal)
    (disable_pyomo_signal_handling update_objective : bool)
    (warmstart need_solution : bool)
| Ev_update_var (solver_of : string) (var : string)
| Ev_gather
| Ev_Allreduce (contribution : Qc).

Abbreviation Xh := (M Xhat_Eval Event).

(** *** Field updates *)

Definition set_value (q : Qc) (v : Var) : Var :=
  {| vname := vname v; _value := q; fixed := fixed v; is_binary := is_binary v;
     is_integer := is_integer v; surrogate := surrogate v |}.

(** [var.fix()]. *)
Definition fix_var (v : Var) : Var :=
  {| vname := vname v; _value := _value v; fixed := true; is_binary := is_binary v;
     is_integer := is_integer v; surrogate := surrogate v |}.

Definition set_vars (vs : list Var) (n : Node) : Node :=
  {| name := name n; stage := stage n; nonant_vardata_list := vs |}.

Definition set_nodes (ns : list Node) (s : Scenario) : Scenario :=
  {| _mpisppy_probability := _mpisppy_probability s; _mpisppy_node_list := ns;
     persistent := persistent s; solver := solver s;
     objective := objective s; feasible := feasible s |}.

Definition set_solution (o : Qc) (f : bool) (s : Scenario) : Scenario :=
  {| _mpisppy_probability := _mpisppy_probability s;
     _mpisppy_node_list := _mpisppy_node_list s;
     persistent := persistent s; solver := solver s;
     objective := o; feasible := f |}.

Definition set_verbose (v : PyVal) (x : Xhat_Eval) : Xhat_Eval :=
  {| options := options x; verbose := v;
     _subproblems_solvers_created := _subproblems_solvers_created x;
     Ag := Ag x; bundling := bundling x; models := models x;
     local_scenarios := local_scenarios x;
     local_subproblems := local_subproblems x;
     names_in_bundles := names_in_bundles x; objs_dict := objs_dict x;
     current_solver_options := current_solver_options x; mpicomm := mpicomm x |}.

Definition set_created (b : bool) (x : Xhat_Eval) : Xhat_Eval :=
  {| options := options x; verbose := verbose x;
     _subproblems_solvers_created := b;
     Ag := Ag x; bundling := bundling x; models := models x;
     local_scenarios := local_scenarios x;
     local_subproblems := local_subproblems x;
     names_in_bundles := names_in_bundles x; objs_dict := objs_dict x;
     current_solver_options := current_solver_options x; mpicomm := mpicomm x |}.

Definition set_Ag (v : PyVal) (x : Xhat_Eval) : Xhat_Eval :=
  {| options := options x; verbose := verbose x;
     _subproblems_solvers_created := _subproblems_solvers_created x;
     Ag := v; bundling := bundling x; models := models x;
     local_scenarios := local_scenarios x;
     local_subproblems := local_subproblems x;
     names_in_bundles := names_in_bundles x; objs_dict := objs_dict x;
     current_solver_options := current_solver_options x; mpicomm := mpicomm x |}.

Definition with_models (f : gmap string Scenario → gmap string Scenario)
    (x : Xhat_Eval) : Xhat_Eval :=
  {| options := options x; verbose := verbose x;
     _subproblems_solvers_created := _subproblems_solvers_created x;
     Ag := Ag x; bundling := bundling x; models := f (models x);
     local_scenarios := local_scenarios x;
     local_subproblems := local_subproblems x;
     names_in_bundles := names_in_bundles x; objs_dict := objs_dict x;
     current_solver_options := current_solver_options x; mpicomm := mpicomm x |}.

Definition set_objs_dict (d : option (gmap string Qc)) (x : Xhat_Eval) : Xhat_Eval :=
  {| options := options x; verbose := verbose x;
     _subproblems_solvers_created := _subproblems_solvers_created x;
     Ag := Ag x; bundling := bundling x; models := models x;
     local_scenarios := local_scenarios x;
     local_subproblems := local_subproblems x;
     names_in_bundles := names_in_bundles x; objs_dict := d;
     current_solver_options := current_solver_options x; mpicomm := mpicomm x |}.

Definition set_mpicomm (c : list Qc) (x : Xhat_Eval) : Xhat_Eval :=
  {| options := options x; verbose := verbose x;
     _subproblems_solvers_created := _subproblems_solvers_created x;
     Ag := Ag x; bundling := bundling x; models := models x;
     local_scenarios := local_scenarios x;
     local_subproblems := local_subproblems x;
     names_in_bundles := names_in_bundles x; objs_dict := objs_dict x;
     current_solver_options := current_solver_options x; mpicomm := c |}.

(** *** Loops *)

(** [for a in l: body(a)]. *)
Fixpoint for_each {A} (l : list A) (body : A → Xh unit) : Xh unit :=
  match l with
  | [] => ret tt
  | a :: l' => body a >> for_each l' body
  end.

(** [[body(a) for a in l]], stopping at the first exception. *)
Fixpoint map_m {A B} (l : list A) (body : A → Xh B) : Xh (list B) :=
  match l with
  | [] => ret []
  | a :: l' =>
      let! b := body a in
      let! bs := map_m l' body in
      ret (b :: bs)
  end.

(** *** The base class [SPOpt] and MPI

    [SPOpt] is not part of the file embedded here; what [Xhat_Eval] calls
    of it is modelled below. *)

Definition sum_Qc (l : list Qc) : Qc := foldr Qcplus (Q2Qc 0) l.

(** The model object named [k]. *)
Definition model (k : string) : Xh Scenario :=
  let! h := gets models in
  match h !! k with
  | Some s => ret s
  | None => raise (KeyError k)
  end.

(** Modelled from the spec: [MPI.Allreduce] with [op=MPI.SUM]; every rank
    receives the sum of all contributions. *)
Definition Allreduce_SUM (contribution : Qc) : Xh Qc :=
  let! c := gets mpicomm in
  modify (set_mpicomm (tail c)) >>
  emit (Ev_Allreduce contribution) >>
  ret (contribution + default (Q2Qc 0) (head c))%Qc.

(** Modelled from the spec: [SPOpt._create_solvers] attaches a solver
    plug-in to every local subproblem. *)
Definition _create_solvers (presolve : bool) : Xh unit :=
  emit (Ev_create_solvers presolve).

(** The effect of a solve on a model: the solver's outcome becomes the
    value of the objective and the feasibility indicator. *)
Definition solved (s : Scenario) : Scenario :=
  match solver s (_mpisppy_node_list s) with
  | Some v => set_solution v true s
  | None => set_solution (objective s) false s
  end.

(** Modelled from the spec: [SPOpt.solve_one] calls the external solver
    on one model; infeasibility is recorded, not raised. *)
Definition base_solve_one (solver_options : PyVal) (k : string)
    (dtiming gripe tee : bool) (verbose : PyVal)
    (disable_pyomo_signal_handling update_objective warmstart need_solution : bool)
    : Xh unit :=
  emit (Ev_solve_one solver_options k dtiming gripe tee verbose
          disable_pyomo_signal_handling update_objective warmstart need_solution) >>
  modify (with_models (alter solved k)).

(** Fixing the variables of a node at the values of a cache entry. *)
Fixpoint fix_at (vals : list Qc) (vs : list Var) : list Var :=
  match vs, vals with
  | v :: vs', q :: vals' => fix_var (set_value q v) :: fix_at vals' vs'
  | _, _ => vs
  end.

Definition fix_node (cache : Cache) (n : Node) : Node :=
  match cache !! name n with
  | Some (Some vals) => set_vars (fix_at vals (nonant_vardata_list n)) n
  | _ => n
  end.

(** Modelled from the spec: [SPOpt._fix_nonants] fixes every
    non-anticipative coordinate of every local scenario at the value the
    cache gives it. *)
Definition _fix_nonants (cache : Cache) : Xh unit :=
  emit (Ev_fix_nonants cache) >>
  let! names := gets local_scenarios in
  for_each names (λ k,
    modify (with_models (alter (λ s,
      set_nodes (map (fix_node cache) (_mpisppy_node_list s)) s) k))).

(** Modelled from the spec: [SPOpt.Eobjective], the expected value of the
    objective across all scenarios, from the current values. *)
Definition base_Eobjective (verbose : PyVal) : Xh Qc :=
  let! names := gets local_scenarios in
  let! terms := map_m names (λ k,
    let! s := model k in
    ret (_mpisppy_probability s * objective s)%Qc) in
  Allreduce_SUM (sum_Qc terms).

(** Modelled from the spec: [SPOpt.infeas_prob], the total probability of
    the scenarios whose last solve was infeasible. *)
Definition infeas_prob : Xh Qc :=
  let! names := gets local_scenarios in
  let! terms := map_m names (λ k,
    let! s := model k in
    ret (if feasible s then Q2Qc 0 else _mpisppy_probability s)) in
  Allreduce_SUM (sum_Qc terms).

(** *** Numbers *)

(** A value used as a number in arithmetic; [bool] is a subclass of
    [int]. *)
Definition to_number (v : PyVal) : option Qc :=
  match v with
  | PyInt z => Some (Q2Qc (inject_Z z))
  | PyFloat q => Some q
  | PyBool b => Some (Q2Qc (inject_Z (if b then 1 else 0)))
  | _ => None
  end.

(** Python's [round]: to the nearest integer, ties to the even one. *)
Definition py_round (q : Qc) : Z :=
  let f := Qfloor q in
  match Qccompare (q - Q2Qc (inject_Z f)) (Q2Qc (1 # 2)) with
  | Lt => f
  | Gt => (f + 1)%Z
  | Eq => if Z.even f then f else (f + 1)%Z
  end.

Definition digit_of (a : Ascii.ascii) : option Z :=
  let n := Z.of_nat (Ascii.nat_of_ascii a) in
  if ((48 <=? n) && (n <=? 57))%Z then Some (n - 48)%Z else None.

Fixpoint last_number (s : string) (acc : option Z) : option Z :=
  match s with
  | EmptyString => acc
  | String a s' =>
      match digit_of a with
      | Some d => last_number s' (Some (10 * default 0%Z acc + d)%Z)
      | None => last_number s' None
      end
  end.

(** Modelled from the spec: [sputils.extract_num], the number a name
    ends with ("the bundle number is the last number in the name"). *)
Definition extract_num (k : string) : option Z := last_number k None.

(** *** Loops that mutate in place

    A step returns the element as it left it, the calls it made, and the
    exception that stopped it, if any; the elements after the one that
    raised are left as they were. *)
Fixpoint in_place {A} (step : A → A * list Event * option Exn) (l : list A)
    : list A * list Event * option Exn :=
  match l with
  | [] => ([], [], None)
  | a :: l' =>
      match step a with
      | (a', evs, Some e) => (a' :: l', evs, Some e)
      | (a', evs, None) =>
          match in_place step l' with
          | (r, evs', x) => (a' :: r, evs ++ evs', x)
          end
      end
  end.

(** Running a mutating step on the model object named [k]. *)
Definition mutate_model (k : string)
    (step : Scenario → Scenario * list Event * option Exn) : Xh unit :=
  λ x,
    match models x !! k with
    | None => (Raise (KeyError k), x, [])
    | Some s =>
        match step s with
        | (s', evs, Some e) => (Raise e, with_models (insert k s') x, evs)
        | (s', evs, None) => (Ret tt, with_models (insert k s') x, evs)
        end
    end.

Definition on_vars (step : Var → Var * list Event * option Exn) (n : Node)
    : Node * list Event * option Exn :=
  match in_place step (nonant_vardata_list n) with
  | (vs, evs, x) => (set_vars vs n, evs, x)
  end.

Definition on_nodes (step : Node → Node * list Event * option Exn) (s : Scenario)
    : Scenario * list Event * option Exn :=
  match in_place step (_mpisppy_node_list s) with
  | (ns, evs, x) => (set_nodes ns s, evs, x)
  end.

Definition update_var (solver_of : option string) (v : Var) : list Event :=
  match solver_of with
  | Some k => [Ev_update_var k (vname v)]
  | None => []
  end.

(** *** NumPy values and MPI buffers

    [fct] is documented as a function R --> R^p: it returns a number or
    a one-dimensional array, and so does [Eobjective]. *)
Inductive NumVal :=
| Float (q : Qc)
| Vector (a : list Qc).

(** An array of one or of two dimensions. *)
Inductive ndarray :=
| Array1 (a : list Qc)
| Array2 (rows : list (list Qc)).

(** [p * v] for a float [p]. *)
Definition scale (p : Qc) (v : NumVal) : NumVal :=
  match v with
  | Float q => Float (p * q)
  | Vector a => Vector (map (Qcmult p) a)
  end.

Definition as_float (v : NumVal) : option Qc :=
  match v with
  | Float q => Some q
  | Vector _ => None
  end.

Definition as_vector (v : NumVal) : option (list Qc) :=
  match v with
  | Float _ => None
  | Vector a => Some a
  end.

Definition inhomogeneous : Exn :=
  ValueError "setting an array element with a sequence: inhomogeneous shape".

(** [np.array(l)]: a list of numbers is an array of one dimension, a
    list of arrays of one length is an array of two; any other list has
    no shape. *)
Definition np_array (l : list NumVal) : Exn + ndarray :=
  match mapM as_float l with
  | Some qs => inr (Array1 qs)
  | None =>
      match mapM as_vector l with
      | Some (r :: rows) =>
          if forallb (λ r', Nat.eqb (length r') (length r)) rows
          then inr (Array2 (r :: rows))
          else inl inhomogeneous
      | _ => inl inhomogeneous
      end
  end.

(** [np.sum(a, axis=0)]: the sum of a one-dimensional array, the sums of
    the columns of a two-dimensional one. *)
Definition np_sum_axis0 (a : ndarray) : NumVal :=
  match a with
  | Array1 qs => Float (sum_Qc qs)
  | Array2 rows =>
      Vector (foldr (zip_with Qcplus)
                (replicate (length (default [] (head rows))) (Q2Qc 0)) rows)
  end.

(** [len(a)]: the size of the first dimension. *)
Definition np_len (a : ndarray) : nat :=
  match a with
  | Array1 qs => length qs
  | Array2 rows => length rows
  end.

(** The numbers of an array, as a message buffer holds them. *)
Definition np_flat (a : ndarray) : list Qc :=
  match a with
  | Array1 qs => qs
  | Array2 rows => concat rows
  end.

(** [np.zeros(n)]. *)
Definition np_zeros (n : nat) : list Qc := replicate n (Q2Qc 0).

(** A NumPy call that may raise. *)
Definition lift {A} (r : Exn + A) : Xh A :=
  match r with
  | inl e => raise e
  | inr a => ret a
  end.

(** Modelled from the spec: [MPI.Allreduce(sendbuf, recvbuf, op=MPI.SUM)];
    every rank receives in [recvbuf], element by element, the sum of all
    contributions ([mpicomm] holds what the other ranks contribute).
    The two buffers must hold the same number of elements: mpi4py raises
    a [ValueError] otherwise. *)
Definition Allreduce (sendbuf recvbuf : list Qc) : Xh (list Qc) :=
  if bool_decide (length sendbuf = length recvbuf) then
    map_m sendbuf Allreduce_SUM
  else raise (ValueError "mismatch in send count and receive count").

(** *** [Xhat_Eval] *)

(** The part of [__init__] after the call of the base class's. *)
Definition __init__ : Xh unit :=
  let! o := gets options in
  let! v := getitem o "verbose" in
  modify (set_verbose v) >>
  modify (set_created false) >>
  modify (set_Ag (default PyNone (o !! "Ag"))).

Definition _lazy_create_solvers : Xh unit :=
  let! created := gets _subproblems_solvers_created in
  if created then ret tt
  else
    _create_solvers false >>
    modify (set_created true).

(** [self.saved_objectives[k]], evaluated. *)
Definition saved_objective (k : string) : Xh Qc :=
  let! s := model k in
  ret (objective s).

Definition solve_one (solver_options : PyVal) (k : string)
    (dtiming gripe tee : bool) (verbose : PyVal)
    (disable_pyomo_signal_handling update_objective compute_val_at_nonant
       warmstart : bool) : Xh unit :=
  _lazy_create_solvers >>
  base_solve_one solver_options k dtiming gripe tee verbose
    disable_pyomo_signal_handling update_objective warmstart
    compute_val_at_nonant >>
  when compute_val_at_nonant
    (let! objfct := saved_objective k in
     let! d := gets objs_dict in
     match d with
     | Some d => modify (set_objs_dict (Some (<[k := objfct]> d)))
     | None => raise (AttributeError "objs_dict")
     end).

Definition solve_loop (solver_options : PyVal)
    (use_scenarios_not_subproblems dtiming gripe
       disable_pyomo_signal_handling tee : bool) (verbose : PyVal)
    (compute_val_at_nonant warmstart need_solution : bool) : Xh unit :=
  _lazy_create_solvers >>
  let! s_source := gets (λ x, if use_scenarios_not_subproblems
                              then local_scenarios x
                              else local_subproblems x) in
  when compute_val_at_nonant (modify (set_objs_dict (Some ∅))) >>
  for_each s_source (λ k,
    solve_one solver_options k dtiming gripe tee verbose
      disable_pyomo_signal_handling true compute_val_at_nonant warmstart) >>
  when dtiming
    (match s_source with
     | [] => raise (UnboundLocalError "pyomo_solve_time")
     | _ :: _ => emit Ev_gather
     end).

Definition Eobjective (verbose : PyVal) (fct : option (Qc → NumVal)) : Xh NumVal :=
  _lazy_create_solvers >>
  match fct with
  | None =>
      let! e := base_Eobjective verbose in
      ret (Float e)
  | Some fct =>
      let! d := gets objs_dict in
      match d with
      | None =>
          raise (RuntimeError
            "Values of the objective functions for each scenario at xhat have to be computed before running Eobjective")
      | Some d =>
          let! names := gets local_scenarios in
          let! local_Eobjs := map_m names (λ k,
            let! s := model k in
            match d !! k with
            | None => raise (RuntimeError "No value has been calculated for the scenario")
            | Some v => ret (scale (_mpisppy_probability s) (fct v))
            end) in
          let! local_Eobjs := lift (np_array local_Eobjs) in
          let! local_Eobj := lift (np_array [np_sum_axis0 local_Eobjs]) in
          let global_Eobj := np_zeros (np_len local_Eobj) in
          let! global_Eobj := Allreduce (np_flat local_Eobj) global_Eobj in
          if bool_decide (length global_Eobj = 1%nat)
          then ret (Float (default (Q2Qc 0) (head global_Eobj)))
          else ret (Vector global_Eobj)
      end
  end.

(** [self.options["solver_options"] if "solver_options" in self.options
    else None]. *)
Definition the_solver_options : Xh PyVal :=
  gets (λ x, default PyNone (options x !! "solver_options")).

Definition evaluate_one (nonant_cache : Cache) (scenario_name : string) : Xh Qc :=
  _lazy_create_solvers >>
  _fix_nonants nonant_cache >>
  let! d := gets objs_dict in
  when (bool_decide (d = None)) (modify (set_objs_dict (Some ∅))) >>
  let! solver_options := the_solver_options in
  let k := scenario_name in
  let! v := gets verbose in
  solve_one solver_options k false true false v false true true false >>
  let! d := gets objs_dict in
  match d with
  | None => raise (AttributeError "objs_dict")
  | Some d =>
      match d !! k with
      | Some obj => ret obj
      | None => raise (KeyError k)
      end
  end.

Definition evaluate (nonant_cache : Cache) (fct : option (Qc → NumVal))
    : Xh NumVal :=
  _lazy_create_solvers >>
  _fix_nonants nonant_cache >>
  let! solver_options := the_solver_options in
  let! v := gets verbose in
  solve_loop solver_options true false true false false v true false false >>
  let! v := gets verbose in
  Eobjective v fct.

(** The value a variable is fixed at: rounded when it is integral. *)
Definition rounded (rounding_bias : PyVal) (v : Var) (q : Qc) : Exn + Qc :=
  if is_binary v || is_integer v then
    match to_number rounding_bias with
    | Some b => inr (Q2Qc (inject_Z (py_round (q + b))))
    | None => inl (TypeError "unsupported operand type(s) for +")
    end
  else inr q.

Fixpoint fix_vars_from (rounding_bias : PyVal) (persistent_solver : option string)
    (vals : list Qc) (vs : list Var) : list Var * list Event * option Exn :=
  match vs, vals with
  | v :: vs', q :: vals' =>
      if surrogate v then
        match fix_vars_from rounding_bias persistent_solver vals' vs' with
        | (r, evs, x) => (v :: r, evs, x)
        end
      else
        match rounded rounding_bias v q with
        | inl e => (v :: vs', [], Some e)
        | inr q' =>
            let v' := fix_var (set_value q' v) in
            match fix_vars_from rounding_bias persistent_solver vals' vs' with
            | (r, evs, x) => (v' :: r, update_var persistent_solver v' ++ evs, x)
            end
        end
  | _, _ => (vs, [], None)
  end.

Definition fix_nonants_upto_stage (t : Z) (cache : Cache) : Xh unit :=
  _lazy_create_solvers >>
  let! rounding_bias := gets (λ x, default (PyFloat (Q2Qc 0))
                                     (options x !! "rounding_bias")) in
  let! names := gets local_scenarios in
  for_each names (λ k,
    mutate_model k (λ s,
      let persistent_solver := if persistent s then Some k else None in
      on_nodes (λ node,
        if (stage node <=? t)%Z then
          let ndn := name node in
          match cache !! ndn with
          | None => (node, [], Some (RuntimeError "Could not find the node in the cache"))
          | Some None => (node, [], Some (RuntimeError "Empty cache"))
          | Some (Some vals) =>
              if bool_decide (length vals ≠ length (nonant_vardata_list node)) then
                (node, [], Some (RuntimeError "Needed a different number of nonant Vars"))
              else
                match fix_vars_from rounding_bias persistent_solver vals
                        (nonant_vardata_list node) with
                | (vs, evs, x) => (set_vars vs node, evs, x)
                end
          end
        else (node, [], None)) s)).

(** The persistent solvers of the bundles are told of the variables of
    their scenarios. *)
Fixpoint scenario_updates (x : Xhat_Eval) (solver_of : string)
    (members : option (list string)) (names : list string)
    : list Event * option Exn :=
  match names with
  | [] => ([], None)
  | sname :: names' =>
      match members with
      | None => ([], Some (KeyError "names_in_bundles"))
      | Some ms =>
          if bool_decide (sname ∈ ms) then
            match models x !! sname with
            | None => ([], Some (KeyError sname))
            | Some scen =>
                let evs :=
                  concat (map (λ n,
                    concat (map (λ v, if surrogate v then []
                                      else [Ev_update_var solver_of (vname v)])
                              (nonant_vardata_list n)))
                    (_mpisppy_node_list scen)) in
                match scenario_updates x solver_of members names' with
                | (evs', e) => (evs ++ evs', e)
                end
            end
          else ([], None)
      end
  end.

Fixpoint bundle_updates (x : Xhat_Eval) (subproblems : list string)
    : list Event * option Exn :=
  match subproblems with
  | [] => ([], None)
  | k :: rest =>
      match models x !! k with
      | None => ([], Some (KeyError k))
      | Some s =>
          if persistent s then
            match extract_num k with
            | None => ([], Some (AttributeError "group"))
            | Some bunnum =>
                match scenario_updates x k (names_in_bundles x !! bunnum)
                        (local_scenarios x) with
                | (evs, Some e) => (evs, Some e)
                | (evs, None) =>
                    match bundle_updates x rest with
                    | (evs', e) => (evs ++ evs', e)
                    end
                end
            end
          else ([], None)
      end
  end.

Definition _fix_nonants_at_value : Xh unit :=
  let! rounding_bias := gets (λ x, default (PyFloat (Q2Qc 0))
                                     (options x !! "rounding_bias")) in
  let! bundled := gets bundling in
  let! names := gets local_scenarios in
  for_each names (λ k,
    mutate_model k (λ s,
      let persistent_solver :=
        if negb bundled then (if persistent s then Some k else None) else None in
      on_nodes (on_vars (λ var,
        if surrogate var then (var, [], None)
        else
          match rounded rounding_bias var (_value var) with
          | inl e => (var, [], Some e)
          | inr q =>
              let var' := fix_var (set_value q var) in
              (var', update_var persistent_solver var', None)
          end)) s)) >>
  when bundled
    (λ x,
       match bundle_updates x (local_subproblems x) with
       | (evs, Some e) => (Raise e, x, evs)
       | (evs, None) => (Ret tt, x, evs)
       end).

(** Lines 398-404 of [calculate_incumbent]: everything before the test
    of feasibility. *)
Definition solve_for_incumbent (fix_nonants : bool) (verbose : PyVal) : Xh unit :=
  _lazy_create_solvers >>
  when fix_nonants _fix_nonants_at_value >>
  let! solver_options := gets current_solver_options in
  solve_loop solver_options false false false false false verbose false false false.

Definition calculate_incumbent (fix_nonants : bool) (verbose : PyVal)
    : Xh (option NumVal) :=
  solve_for_incumbent fix_nonants verbose >>
  let! infeasP := infeas_prob in
  if bool_decide (infeasP ≠ Q2Qc 0) then ret None
  else
    let! e := Eobjective verbose None in
    ret (Some e).

(** *** Sequences of calls on one instance *)

(** The public operations, with their arguments. *)
Inductive Call :=
| Call_solve_one (solver_options : PyVal) (k : string)
    (dtiming gripe tee : bool) (verbose : PyVal)
    (disable_pyomo_signal_handling update_objective compute_val_at_nonant
       warmstart : bool)
| Call_solve_loop (solver_options : PyVal)
    (use_scenarios_not_subproblems dtiming gripe
       disable_pyomo_signal_handling tee : bool) (verbose : PyVal)
    (compute_val_at_nonant warmstart need_solution : bool)
| Call_Eobjective (verbose : PyVal) (fct : option (Qc → NumVal))
| Call_evaluate_one (nonant_cache : Cache) (scenario_name : string)
| Call_evaluate (nonant_cache : Cache) (fct : option (Qc → NumVal))
| Call_fix_nonants_upto_stage (t : Z) (cache : Cache)
| Call_calculate_incumbent (fix_nonants : bool) (verbose : PyVal).

(** One call, its result dropped. *)
Definition call (c : Call) : Xh unit :=
  match c with
  | Call_solve_one so k dt gr tee vb dis upd cv ws =>
      solve_one so k dt gr tee vb dis upd cv ws
  | Call_solve_loop so use dt gr dis tee vb cv ws ns =>
      solve_loop so use dt gr dis tee vb cv ws ns
  | Call_Eobjective vb fct => Eobjective vb fct >> ret tt
  | Call_evaluate_one cache k => evaluate_one cache k >> ret tt
  | Call_evaluate cache fct => evaluate cache fct >> ret tt
  | Call_fix_nonants_upto_stage t cache => fix_nonants_upto_stage t cache
  | Call_calculate_incumbent fx vb => calculate_incumbent fx vb >> ret tt
  end.

(** A caller making the calls one after the other, going on after an
    exception: the instance as it ends up, and all the calls it made on
    its collaborators. *)
Fixpoint calls (cs : list Call) (x : Xhat_Eval) : Xhat_Eval * list Event :=
  match cs with
  | [] => (x, [])
  | c :: cs' =>
      match call c x with
      | (_, x1, e1) =>
          match calls cs' x1 with
          | (x2, e2) => (x2, e1 ++ e2)
          end
      end
  end.

Definition is_create (e : Event) : bool :=
  match e with
  | Ev_create_solvers _ => true
  | _ => false
  end.

(** How many times the solvers were created. *)
Definition creates (evs : list Event) : nat := length (filter is_create evs).

(** *** A concrete evaluator

    Two scenarios with one first-stage variable [x]; the first costs
    [10 x], the second costs [20 x] and is infeasible for [x > 5]. *)

Definition qc (n : Z) (d : positive) : Qc := Q2Qc (n # d).

Definition total_value (ns : list Node) : Qc :=
  sum_Qc (concat (map (λ n, map _value (nonant_vardata_list n)) ns)).

Definition example_node (q : Qc) : Node :=
  {| name := "ROOT"; stage := 1;
     nonant_vardata_list :=
       [{| vname := "x"; _value := q; fixed := false; is_binary := false;
           is_integer := false; surrogate := false |}] |}.

Definition scen0 (q : Qc) : Scenario :=
  {| _mpisppy_probability := qc 6 10;
     _mpisppy_node_list := [example_node q];
     persistent := false;
     solver := λ ns, Some (qc 10 1 * total_value ns)%Qc;
     objective := qc 0 1; feasible := true |}.

Definition scen1 (q : Qc) : Scenario :=
  {| _mpisppy_probability := qc 4 10;
     _mpisppy_node_list := [example_node q];
     persistent := false;
     solver := λ ns,
       match Qccompare (total_value ns) (qc 5 1) with
       | Gt => None
       | _ => Some (qc 20 1 * total_value ns)%Qc
       end;
     objective := qc 0 1; feasible := true |}.

(** The instance as the base class's [__init__] leaves it, with [x] at
    [q] in both scenarios. *)
Definition example_xhat (q : Qc) : Xhat_Eval :=
  {| options := <["verbose" := PyBool false]> ∅;
     verbose := PyNone;
     _subproblems_solvers_created := true;
     Ag := PyNone;
     bundling := false;
     models := <["scen0" := scen0 q]> (<["scen1" := scen1 q]> ∅);
     local_scenarios := ["scen0"; "scen1"];
     local_subproblems := ["scen0"; "scen1"];
     names_in_bundles := ∅;
     objs_dict := None;
     current_solver_options := PyNone;
     mpicomm := [] |}.

(** The candidate solution [x = q]. *)
Definition example_cache (q : Qc) : Cache := <["ROOT" := Some [q]]> ∅.

(** *** Notions used to state the properties of the evaluator *)

Definition flag (x : Xhat_Eval) : nat :=
  if _subproblems_solvers_created x then 1 else 0.

(** [m] creates the solvers exactly when it finds the flag down and
    leaves it up. *)
Definition lazy_ok {A} (m : Xh A) : Prop :=
  ∀ x, creates (events (m x)) + flag x = flag (state (m x)).

Definition quiet_step {A} (step : A → A * list Event * option Exn) : Prop :=
  ∀ a, Forall (λ e, is_create e = false) (step a).1.2.

(** The state once the solvers exist. *)
Definition with_solvers (x : Xhat_Eval) : Xhat_Eval :=
  if _subproblems_solvers_created x then x else set_created true x.

Definition lazy_events (x : Xhat_Eval) : list Event :=
  if _subproblems_solvers_created x then [] else [Ev_create_solvers false].

(** Fixing the nonants of a scenario at a cache, and solving it then. *)
Definition fix_scenario (cache : Cache) (s : Scenario) : Scenario :=
  set_nodes (map (fix_node cache) (_mpisppy_node_list s)) s.

Definition evaluated (cache : Cache) (s : Scenario) : Scenario :=
  solved (fix_scenario cache s).

Definition alter_all (F : Scenario → Scenario) (l : list string)
    (h : gmap string Scenario) : gmap string Scenario :=
  foldl (λ h k, alter F k h) h l.

(** What one pass of the loop of [solve_loop] does to the instance when
    objective values are recorded. *)
Definition solve_step (k : string) (x : Xhat_Eval) : Xhat_Eval :=
  match models x !! k, objs_dict x with
  | Some s, Some d =>
      set_objs_dict (Some (<[k := objective (solved s)]> d))
        (with_models (alter solved k) x)
  | _, _ => x
  end.

(** The instance is ready for a recording pass over the names [l]. *)
Definition recording (l : list string) (x : Xhat_Eval) : Prop :=
  _subproblems_solvers_created x = true
  ∧ is_Some (objs_dict x)
  ∧ ∀ k, k ∈ l → is_Some (models x !! k).

Definition solve_all (l : list string) (x : Xhat_Eval) : Xhat_Eval :=
  foldl (λ x k, solve_step k x) x l.

(** The local part of an expectation: over the scenarios of this rank,
    probability times [g] of the objective value. *)
Definition expect (g : Qc → Qc) (x : Xhat_Eval) : Qc :=
  sum_Qc (map (λ k, match models x !! k with
                    | Some s => (_mpisppy_probability s * g (objective s))%Qc
                    | None => Q2Qc 0
                    end) (local_scenarios x)).

Definition fct_or_id (fct : option (Qc → Qc)) : Qc → Qc := default id fct.

(** An [fct] whose values are numbers (R --> R). *)
Definition scalar_fct (fct : option (Qc → Qc)) : option (Qc → NumVal) :=
  (λ f v, Float (f v)) <$> fct.

(** An [fct] whose values are arrays of length 2: a value and its
    square. *)
Definition squares (v : Qc) : NumVal := Vector [v; (v * v)%Qc].

(** The cache is a full assignment: it gives every node of every local
    scenario as many values as the node has variables. *)
Definition full_assignment (cache : Cache) (x : Xhat_Eval) : Prop :=
  ∀ k s n, k ∈ local_scenarios x → models x !! k = Some s →
    n ∈ _mpisppy_node_list s →
    ∃ vals, cache !! name n = Some (Some vals)
            ∧ length vals = length (nonant_vardata_list n).

(** Every variable of the scenario has the value the cache gives it,
    and is fixed. *)
Definition fixed_at (cache : Cache) (s : Scenario) : Prop :=
  Forall (λ n, ∃ vals, cache !! name n = Some (Some vals)
                       ∧ map _value (nonant_vardata_list n) = vals
                       ∧ Forall (λ v, fixed v = true) (nonant_vardata_list n))
    (_mpisppy_node_list s).

(** The expectation, over the scenarios of one rank, of [g] of the
    objective value each scenario has once its nonants are fixed at the
    cache and it is solved. *)
Definition local_expectation (cache : Cache) (g : Qc → Qc) (x : Xhat_Eval) : Qc :=
  sum_Qc (map (λ k, match models x !! k with
                    | Some s =>
                        (_mpisppy_probability s * g (objective (evaluated cache s)))%Qc
                    | None => Q2Qc 0
                    end) (local_scenarios x)).

(** The total probability of the local scenarios that are infeasible. *)
Definition infeasible_probability (x : Xhat_Eval) : Qc :=
  sum_Qc (map (λ k, match models x !! k with
                    | Some s => if feasible s then Q2Qc 0 else _mpisppy_probability s
                    | None => Q2Qc 0
                    end) (local_scenarios x)).

End Xhat.

(** ** Runs of monadic computations *)

Lemma run_bind {St Ev A B} (m : M St Ev A) (k : A → M St Ev B)
    s a s1 e1 o s2 e2 e :
  m s = (Ret a, s1, e1) →
  k a s1 = (o, s2, e2) →
  e = e1 ++ e2 →
  bind m k s = (o, s2, e).
Proof.
  intros Hm Hk ->. unfold bind. rewrite Hm, Hk. reflexivity.
Qed.


Lemma bind_eq {St Ev A B} (m : M St Ev A) (k : A → M St Ev B) s o s1 e1 :
  m s = (o, s1, e1) →
  bind m k s =
    match o with
    | Ret a => (outcome (k a s1), state (k a s1), e1 ++ events (k a s1))
    | Raise x => (Raise x, s1, e1)
    | OutOfFuel => (OutOfFuel, s1, e1)
    end.
Proof.
  intros Hm. unfold bind. rewrite Hm. destruct o; try reflexivity.
  destruct (k a s1) as [[o2 s2] e2]. reflexivity.
Qed.

Lemma run_eta {St Ev A} (r : Outcome A * St * list Ev) :
  r = (outcome r, state r, events r).
Proof. destruct r as [[o s] e]. reflexivity. Qed.

Lemma run_conv {St Ev A} (m : M St Ev A) s o s' e (r : Outcome A * St * list Ev) :
  m s = (o, s', e) → (o, s', e) = r → m s = r.
Proof. congruence. Qed.

(** *** The Hoare rules *)

Section Hoare.
Context {St Ev : Type}.
Implicit Types (P : St → Prop) (Q : Ev → Prop).

Lemma hoare_ret {A} P Q (a : A) (R : A → St → Prop) :
  (∀ s, P s → R a s) → hoare P Q (ret a) R.
Proof.
  intros H s Hs. split; [constructor|].
  intros a' [= <-]. apply H, Hs.
Qed.

Lemma hoare_gets {A} P Q (f : St → A) (R : A → St → Prop) :
  (∀ s, P s → R (f s) s) → hoare P Q (gets f) R.
Proof.
  intros H s Hs. split; [constructor|].
  intros a' [= <-]. apply H, Hs.
Qed.

Lemma hoare_modify P Q (f : St → St) (R : unit → St → Prop) :
  (∀ s, P s → R tt (f s)) → hoare P Q (modify f) R.
Proof.
  intros H s Hs. split; [constructor|].
  intros a' [= <-]. apply H, Hs.
Qed.

Lemma hoare_emit P Q (e : Ev) (R : unit → St → Prop) :
  Q e → (∀ s, P s → R tt s) → hoare P Q (emit e) R.
Proof.
  intros He H s Hs. split; [repeat constructor; exact He|].
  intros a' [= <-]. apply H, Hs.
Qed.

Lemma hoare_raise {A} P Q x (R : A → St → Prop) :
  hoare P Q (raise x) R.
Proof. intros s Hs. split; [constructor|]. intros a' [=]. Qed.

Lemma hoare_out_of_fuel {A} P Q (R : A → St → Prop) :
  hoare P Q out_of_fuel R.
Proof. intros s Hs. split; [constructor|]. intros a' [=]. Qed.

Lemma hoare_bind {A B} P Q (m : M St Ev A) (k : A → M St Ev B)
    (R1 : A → St → Prop) (R2 : B → St → Prop) :
  hoare P Q m R1 →
  (∀ a, hoare (R1 a) Q (k a) R2) →
  hoare P Q (bind m k) R2.
Proof.
  intros Hm Hk s Hs. destruct (Hm s Hs) as [Hev Hret].
  unfold bind. destruct (m s) as [[[a| |] s1] e1]; simpl in *.
  - destruct (Hk a s1 (Hret a eq_refl)) as [Hev2 Hret2].
    destruct (k a s1) as [[o s2] e2]; simpl in *.
    split; [apply Forall_app; split; assumption|exact Hret2].
  - split; [assumption|]. intros b [=].
  - split; [assumption|]. intros b [=].
Qed.

Lemma hoare_conseq {A} P P' Q (m : M St Ev A) (R R' : A → St → Prop) :
  hoare P Q m R →
  (∀ s, P' s → P s) →
  (∀ a s, R a s → R' a s) →
  hoare P' Q m R'.
Proof.
  intros Hm HP HR s Hs. destruct (Hm s (HP s Hs)) as [Hev Hret].
  split; [assumption|]. intros a Ha. apply HR, Hret, Ha.
Qed.

Lemma hoare_pure {A} P (φ : Prop) Q (m : M St Ev A) (R : A → St → Prop) :
  (φ → hoare P Q m R) → hoare (λ s, P s ∧ φ) Q m R.
Proof. intros H s [Hs Hφ]. apply (H Hφ s Hs). Qed.

Lemma hoare_when P Q (b : bool) (m : M St Ev unit) (R : unit → St → Prop) :
  (b = true → hoare P Q m R) →
  (b = false → ∀ s, P s → R tt s) →
  hoare P Q (when b m) R.
Proof.
  destruct b; simpl; intros Ht Hf; [auto|].
  apply hoare_ret. auto.
Qed.
End Hoare.


(** ** Properties of the Lagrangian spoke *)

Module LagrangianSpec.
Import Lagrangian.

(** *** Running the spoke step by step *)

Lemma opt_option_run s key v :
  options (opt s) !! key = Some v →
  opt_option key s = (Ret v, s, []).
Proof.
  intros H. unfold opt_option, bind, gets, getitem. simpl.
  rewrite H. reflexivity.
Qed.

Lemma opt_option_raise s key :
  options (opt s) !! key = None →
  opt_option key s = (Raise (KeyError key), s, []).
Proof.
  intros H. unfold opt_option, bind, gets, getitem. simpl.
  rewrite H. reflexivity.
Qed.

Lemma tee_rank0_solves_run s :
  tee_rank0_solves s = (Ret (tee_of (options (opt s))), s, []).
Proof.
  unfold tee_rank0_solves, tee_of, bind, gets. simpl.
  destruct (options (opt s) !! "tee-rank0-solves") as [t|] eqn:Ht; simpl.
  - rewrite ?bool_decide_eq_true_2 by eauto.
    rewrite (opt_option_run _ _ _ Ht). reflexivity.
  - rewrite ?bool_decide_eq_false_2 by (intros [? ?]; discriminate).
    reflexivity.
Qed.

Lemma call_hook_run s hook h :
  extobject (opt s) !! hook = Some h →
  call_hook hook s = (Ret tt, with_opt (with_ph h) s, [Ev_hook hook]).
Proof.
  intros H. unfold call_hook, bind, gets. cbv beta iota. rewrite H. reflexivity.
Qed.


Ltac run_leaf :=
  first
    [ eapply opt_option_run; simpl; eassumption
    | eapply tee_rank0_solves_run
    | eapply call_hook_run; simpl; eassumption
    | reflexivity ].

Ltac simpl_state :=
  cbn [opt verbose trivial_bound final_bound bound localWs kill_reads Ws_reads
       stdout options extensions extobject ph local_subproblems
       W xbars _PHIter current_solver_options iterk_solver_options
       set_W set_PHIter set_current_solver_options with_ph with_subproblems
       set_extobject with_opt set_verbose set_trivial_bound set_final_bound
       set_bound set_localWs set_kill_reads set_Ws_reads print
       add_stdout after_lagrangian].

Ltac run_simp :=
  cbv beta; simpl_state;
  repeat match goal with
    | H : ?x = _ |- context [when ?x] => rewrite H
    | H : ?x = _ |- context [match ?x with _ => _ end] => rewrite H
    | H : ?x = _ |- context [if ?x then _ else _] => rewrite H
    | H : ?x = true |- context [?x && _] => rewrite H
    | H : ?x = false |- context [?x && _] => rewrite H
    | H : ?x = true |- context [_ && ?x] => rewrite H
    | H : ?x = false |- context [_ && ?x] => rewrite H
    end;
  cbv beta iota delta [when andb].

Ltac run_go :=
  run_simp;
  lazymatch goal with
  | |- bind _ _ _ = _ => eapply run_bind; [ run_go | run_go | reflexivity ]
  | |- _ => run_leaf
  end.

Ltac run := eapply run_conv; [ run_go | ].

Lemma lagrangian_run s ns ws vb sn :
  options (opt s) !! "verbose" = Some vb →
  options (opt s) !! "solver_name" = Some (PyStr sn) →
  lagrangian ns ws s =
    (Ret (Ebound_acc (Q2Qc 0) (map (solve (W (ph (opt s)))) (local_subproblems (opt s)))),
     after_lagrangian sn s,
     [Ev_receive_nonant_bounds;
      Ev_solve_loop (current_solver_options (ph (opt s))) (tee_of (options (opt s)))
        vb ns ws (W (ph (opt s)))]).
Proof.
  intros Hv Hs. unfold lagrangian, after_lagrangian, py_in, solve_loop, Ebound.
  destruct (str_contains "ipopt" sn) eqn:Hipopt; run.
  - reflexivity.
  - destruct s; unfold with_opt, add_stdout; simpl. rewrite app_nil_r. reflexivity.
Qed.

Ltac run_leaf ::=
  first
    [ eapply opt_option_run; simpl; eassumption
    | eapply tee_rank0_solves_run
    | eapply call_hook_run; simpl; eassumption
    | eapply lagrangian_run; simpl; eassumption
    | reflexivity ].

(** *** The straight-line phases, run exactly *)

Lemma ready_same_config r s s' : same_config s s' → ready r s → ready r s'.
Proof.
  intros (Ho & He & Hx) [Hv Hs Hh]. split; rewrite ?Ho, ?Hx; auto.
Qed.

Ltac split_hooks H :=
  let Hh := fresh "Hh" in
  pose proof (H eq_refl) as Hh; unfold main_hooks in Hh;
  repeat match goal with
    | Hf : Forall _ (_ :: _) |- _ =>
        let h := fresh "h" in
        let Hx := fresh "Hx" in
        apply Forall_cons in Hf as [[h Hx] Hf]
    end;
  clear Hh.

Lemma main_iter0_run s ns :
  ready (registered s) s →
  ∃ s' vb,
    options (opt s) !! "verbose" = Some vb ∧
    let p0 := ph_after_hook (registered s) "pre_iter0" s in
    let tb := Ebound_acc (Q2Qc 0) (map (solve (W p0)) (local_subproblems (opt s))) in
    main_iter0 ns s =
      (Ret (registered s), s',
       [Ev_PH_Prep false; Ev_reenable_W; Ev_create_solvers]
       ++ hook_events (registered s) "pre_iter0"
       ++ [Ev_receive_nonant_bounds;
           Ev_solve_loop (current_solver_options p0) (tee_of (options (opt s)))
             vb ns USER_SOLUTION (W p0)]
       ++ hook_events (registered s) "post_iter0"
       ++ [Ev_send_bound tb]
       ++ hook_events (registered s) "post_iter0_after_sync")
    ∧ same_config s s'
    ∧ trivial_bound s' = tb ∧ bound s' = tb
    ∧ kill_reads s' = kill_reads s ∧ Ws_reads s' = Ws_reads s
    ∧ localWs s' = localWs s.
Proof.
  intros [[vb Hv] [sn Hs] Hh].
  unfold main_iter0, lagrangian_prep, PH_Prep, _reenable_W, _create_solvers,
    send_bound, modify_ph, ph_after_hook.
  destruct (registered s) eqn:Hr; unfold registered in Hr.
  - split_hooks Hh.
    eexists _, vb. split; [exact Hv|]. cbv zeta. rewrite Hx.
    split; [run; simpl; reflexivity|].
    repeat split; reflexivity.
  - eexists _, vb. split; [exact Hv|]. cbv zeta.
    split; [run; simpl; reflexivity|].
    repeat split; reflexivity.
Qed.

Lemma update_Ws_some env s ws :
  published_Ws env (Ws_reads s) = Some ws →
  update_Ws env s =
    (Ret true, set_localWs ws (set_Ws_reads (S (Ws_reads s)) s),
     [Ev_update_Ws (Some ws)]).
Proof. intros Hp. unfold update_Ws. run. rewrite ?Hp. reflexivity. Qed.

Lemma update_Ws_none env s :
  published_Ws env (Ws_reads s) = None →
  update_Ws env s =
    (Ret false, set_Ws_reads (S (Ws_reads s)) s, [Ev_update_Ws None]).
Proof. intros Hp. unfold update_Ws. run. rewrite ?Hp. reflexivity. Qed.

Ltac run_leaf ::=
  first
    [ eapply opt_option_run; simpl; eassumption
    | eapply tee_rank0_solves_run
    | eapply call_hook_run; simpl; eassumption
    | eapply lagrangian_run; simpl; eassumption
    | eapply update_Ws_some; simpl; eassumption
    | eapply update_Ws_none; simpl; eassumption
    | reflexivity ].

(** A [WORKING] step: the weight channel has a new vector. *)
Lemma working_step_run env r s ns ws :
  ready r s →
  published_Ws env (Ws_reads s) = Some ws →
  ∃ s' vb,
    options (opt s) !! "verbose" = Some vb ∧
    let p1 := ph_after_hook r "miditer" s in
    let b := Ebound_acc (Q2Qc 0) (map (solve ws) (local_subproblems (opt s))) in
    main_loop_body env r ns s =
      (Ret tt, s',
       [Ev_update_Ws (Some ws)]
       ++ hook_events r "miditer"
       ++ [Ev_W_from_flat_list ws; Ev_receive_nonant_bounds;
           Ev_solve_loop (current_solver_options p1) (tee_of (options (opt s)))
             vb ns PRIOR_SOLUTION ws]
       ++ hook_events r "enditer"
       ++ send_events b
       ++ hook_events r "enditer_after_sync")
    ∧ same_config s s'
    ∧ bound s' = match b with Some _ => b | None => bound s end
    ∧ kill_reads s' = kill_reads s ∧ Ws_reads s' = S (Ws_reads s)
    ∧ localWs s' = ws.
Proof.
  intros [[vb Hv] [sn Hs] Hh] Hp.
  unfold main_loop_body, _set_weights_and_solve, W_from_flat_list,
    send_bound, modify_ph, ph_after_hook.
  destruct (Ebound_acc (Q2Qc 0) (map (solve ws) (local_subproblems (opt s))))
    as [b|] eqn:Hb; destruct r.
  - split_hooks Hh.
    eexists _, vb. split; [exact Hv|]. cbv zeta. rewrite Hx2.
    split; [run; simpl; reflexivity|].
    repeat split; reflexivity.
  - eexists _, vb. split; [exact Hv|]. cbv zeta.
    split; [run; simpl; reflexivity|].
    repeat split; reflexivity.
  - split_hooks Hh.
    eexists _, vb. split; [exact Hv|]. cbv zeta. rewrite Hx2.
    split; [run; simpl; reflexivity|].
    repeat split; reflexivity.
  - eexists _, vb. split; [exact Hv|]. cbv zeta.
    split; [run; simpl; reflexivity|].
    repeat split; reflexivity.
Qed.

Lemma do_while_waiting_off env s ns ws :
  subgradient_on s = false →
  do_while_waiting_for_new_Ws env ns ws s = (Ret tt, s, []).
Proof.
  unfold subgradient_on. intros Hoff.
  unfold do_while_waiting_for_new_Ws. run. reflexivity.
Qed.

Lemma do_while_waiting_on env r s ns ws :
  ready r s →
  subgradient_on s = true →
  ∃ s' vb,
    options (opt s) !! "verbose" = Some vb ∧
    let sps := local_subproblems (opt s) in
    let p := Update_W env sps (Compute_Xbar env sps (ph (opt s))) in
    let b := Ebound_acc (Q2Qc 0) (map (solve (W p)) sps) in
    do_while_waiting_for_new_Ws env ns ws s =
      (Ret tt, s',
       [Ev_Compute_Xbar; Ev_Update_W; Ev_receive_nonant_bounds;
        Ev_solve_loop (current_solver_options p) (tee_of (options (opt s)))
          vb ns ws (W p)]
       ++ send_events b)
    ∧ same_config s s'
    ∧ bound s' = match b with Some _ => b | None => bound s end
    ∧ kill_reads s' = kill_reads s ∧ Ws_reads s' = Ws_reads s
    ∧ localWs s' = localWs s.
Proof.
  intros [[vb Hv] [sn Hs] _]. unfold subgradient_on. intros Hon.
  unfold do_while_waiting_for_new_Ws, opt_Compute_Xbar, opt_Update_W,
    send_bound, modify_ph.
  destruct (Ebound_acc (Q2Qc 0)
              (map (solve (W (Update_W env (local_subproblems (opt s))
                                (Compute_Xbar env (local_subproblems (opt s))
                                   (ph (opt s))))))
                 (local_subproblems (opt s)))) as [b|] eqn:Hb.
  - eexists _, vb. split; [exact Hv|]. cbv zeta.
    split; [run; simpl; reflexivity|]. repeat split; reflexivity.
  - eexists _, vb. split; [exact Hv|]. cbv zeta.
    split; [run; simpl; reflexivity|]. repeat split; reflexivity.
Qed.

Ltac run_leaf ::=
  first
    [ eapply opt_option_run; simpl; eassumption
    | eapply tee_rank0_solves_run
    | eapply call_hook_run; simpl; eassumption
    | eapply lagrangian_run; simpl; eassumption
    | eapply update_Ws_some; simpl; eassumption
    | eapply update_Ws_none; simpl; eassumption
    | eapply do_while_waiting_off; simpl; eassumption
    | reflexivity ].

(** An idle poll with the subgradient option off. *)
Lemma idle_step_off env r s ns :
  published_Ws env (Ws_reads s) = None →
  subgradient_on s = false →
  main_loop_body env r ns s =
    (Ret tt, set_Ws_reads (S (Ws_reads s)) s, [Ev_update_Ws None]).
Proof.
  intros Hp Hoff. unfold main_loop_body. run. reflexivity.
Qed.

(** An idle poll with the subgradient option on. *)
Lemma idle_step_on env r s ns :
  ready r s →
  published_Ws env (Ws_reads s) = None →
  subgradient_on s = true →
  ∃ s' vb,
    options (opt s) !! "verbose" = Some vb ∧
    let sps := local_subproblems (opt s) in
    let p := Update_W env sps (Compute_Xbar env sps (ph (opt s))) in
    let b := Ebound_acc (Q2Qc 0) (map (solve (W p)) sps) in
    main_loop_body env r ns s =
      (Ret tt, s',
       [Ev_update_Ws None; Ev_Compute_Xbar; Ev_Update_W; Ev_receive_nonant_bounds;
        Ev_solve_loop (current_solver_options p) (tee_of (options (opt s)))
          vb ns PRIOR_SOLUTION (W p)]
       ++ send_events b)
    ∧ same_config s s'
    ∧ bound s' = match b with Some _ => b | None => bound s end
    ∧ kill_reads s' = kill_reads s ∧ Ws_reads s' = S (Ws_reads s)
    ∧ localWs s' = localWs s.
Proof.
  intros Hready Hp Hon.
  assert (Hready' : ready r (set_Ws_reads (S (Ws_reads s)) s)).
  { eapply ready_same_config; [|exact Hready]. repeat split. }
  destruct (do_while_waiting_on env r _ ns PRIOR_SOLUTION Hready' Hon)
    as (s' & vb & Hv & Hrun & Hcfg & Hb & Hk & Hw & Hl).
  exists s', vb. split; [exact Hv|]. cbv zeta in *.
  split; [|repeat split; try assumption; apply Hcfg].
  unfold main_loop_body.
  eapply run_bind; [apply update_Ws_none; exact Hp| |reflexivity].
  cbv beta iota. exact Hrun.
Qed.

Lemma finalize_run s :
  ∃ s',
    finalize s =
      (Ret (bound s), s',
       if registered s && has_post_everything s
       then [Ev_hook "post_everything"] else [])
    ∧ same_config s s'
    ∧ final_bound s' = bound s ∧ bound s' = bound s.
Proof.
  unfold finalize, registered, has_post_everything.
  destruct (bool_decide (extensions (opt s) ≠ None)) eqn:Hr;
    destruct (bool_decide (is_Some (extobject (opt s) !! "post_everything"))) eqn:Hp;
    try (pose proof (bool_decide_eq_true_1 _ Hp) as [h Hx]).
  all: eexists; (split; [run; simpl; reflexivity|]); repeat split; reflexivity.
Qed.

Ltac inv_side := cbv beta in *; simpl_state; try done; try tauto.

Ltac inv_step :=
  lazymatch goal with
  | |- hoare ?P _ (bind _ _) _ =>
      apply (hoare_bind P _ _ _ (λ _, P)); [|intros ?]
  | |- hoare _ _ (ret _) _ => apply hoare_ret; intros ? ?; inv_side
  | |- hoare _ _ (gets _) _ => apply hoare_gets; intros ? ?; inv_side
  | |- hoare _ _ (modify _) _ => apply hoare_modify; intros ? ?; inv_side
  | |- hoare _ _ (emit _) _ => apply hoare_emit; [inv_side|intros ? ?; inv_side]
  | |- hoare _ _ (raise _) _ => apply hoare_raise
  | |- hoare _ _ out_of_fuel _ => apply hoare_out_of_fuel
  | |- hoare _ _ (when _ _) _ =>
      apply hoare_when; [intros ?|intros ? ? ?; inv_side]
  | |- hoare _ _ (match ?x with _ => _ end) _ => destruct x
  end.

Ltac inv_unfold :=
  progress unfold opt_option, getitem, py_in, modify_ph, PH_Prep, _reenable_W,
    _create_solvers, receive_nonant_bounds, solve_loop, Ebound,
    W_from_flat_list, send_bound, call_hook, got_kill_signal, update_Ws,
    opt_Compute_Xbar, opt_Update_W, lagrangian_prep, tee_rank0_solves,
    lagrangian, finalize, _set_weights_and_solve,
    do_while_waiting_for_new_Ws, main_iter0, main_loop_body.

Ltac inv_auto := repeat first [ inv_step | inv_unfold ].

(** *** After the kill signal *)

Lemma main_iter0_quiet ns : quiet (main_iter0 ns).
Proof. unfold not_kill. inv_auto. Qed.

Lemma main_loop_body_quiet env r ns : quiet (main_loop_body env r ns).
Proof. unfold not_kill. inv_auto. Qed.

Lemma finalize_quiet : quiet finalize.
Proof. unfold not_kill. inv_auto. Qed.

Lemma got_kill_signal_run env s :
  got_kill_signal env s =
    (Ret (kill_signal env (kill_reads s)), set_kill_reads (S (kill_reads s)) s,
     [Ev_got_kill_signal (kill_signal env (kill_reads s))]).
Proof. reflexivity. Qed.

Lemma main_loop_unfold env fuel r ns :
  main_loop env fuel r ns =
    (let! killed := got_kill_signal env in
     if killed then ret tt
     else match fuel with
          | O => out_of_fuel
          | S fuel' => main_loop_body env r ns >> main_loop env fuel' r ns
          end).
Proof. destruct fuel; reflexivity. Qed.

(** The loop either returns, and then its last event, and only that one,
    is the read of a true termination flag; or it does not return, and
    then it never read a true flag. *)
Lemma main_loop_shape env fuel r ns s :
  (∃ s' evs, main_loop env fuel r ns s = (Ret tt, s', evs ++ [Ev_got_kill_signal true])
             ∧ Forall not_kill evs)
  ∨ ((∀ a, outcome (main_loop env fuel r ns s) ≠ Ret a)
     ∧ Forall not_kill (events (main_loop env fuel r ns s))).
Proof.
  assert (Hnk : not_kill (Ev_got_kill_signal false)) by (unfold not_kill; discriminate).
  revert s. induction fuel as [|fuel IH]; intros s.
  - rewrite main_loop_unfold.
    rewrite (bind_eq _ _ _ _ _ _ (got_kill_signal_run env s)).
    destruct (kill_signal env (kill_reads s)) eqn:Hk; cbn.
    + left. eexists _, []. split; [reflexivity|constructor].
    + right. split; [intros a [=]|]. repeat constructor. exact Hnk.
  - rewrite main_loop_unfold.
    rewrite (bind_eq _ _ _ _ _ _ (got_kill_signal_run env s)).
    destruct (kill_signal env (kill_reads s)) eqn:Hk; cbv iota beta.
    + left. eexists _, []. split; [reflexivity|constructor].
    + set (s0 := set_kill_reads (S (kill_reads s)) s).
      destruct (main_loop_body_quiet env r ns s0 I) as [Hq _].
      destruct (main_loop_body env r ns s0) as [[o s1] e1] eqn:Hbody.
      rewrite (bind_eq _ _ _ _ _ _ Hbody). simpl in Hq.
      destruct o as [[]| |]; cbn.
      * destruct (IH s1) as [(s' & evs & Hrun & Hevs)|[Hno Hevs]].
        -- left. rewrite Hrun. exists s', (Ev_got_kill_signal false :: e1 ++ evs).
           split; [cbn; rewrite app_assoc; reflexivity|].
           constructor; [exact Hnk|]. apply Forall_app; split; assumption.
        -- right. split; [exact Hno|].
           constructor; [exact Hnk|]. apply Forall_app; split; assumption.
      * right. split; [intros a [=]|]. constructor; [exact Hnk|assumption].
      * right. split; [intros a [=]|]. constructor; [exact Hnk|assumption].
Qed.

Lemma split_at_unique {A} (x : A) l1 r1 l2 r2 :
  l1 ++ x :: r1 = l2 ++ x :: r2 →
  Forall (λ y, y ≠ x) l2 → Forall (λ y, y ≠ x) r2 →
  l1 = l2 ∧ r1 = r2.
Proof.
  revert l2. induction l1 as [|a l1 IH]; intros l2 Heq Hl Hr;
    destruct l2 as [|b l2]; simpl in Heq.
  - split; congruence.
  - apply Forall_cons in Hl as [Hb _]. congruence.
  - assert (Hr2 : r2 = l1 ++ x :: r1) by congruence. subst r2.
    apply Forall_app in Hr as [_ Hr]. apply Forall_cons in Hr as [Hx _]. done.
  - apply Forall_cons in Hl as [_ Hl].
    assert (Heq' : l1 ++ x :: r1 = l2 ++ x :: r2) by congruence.
    destruct (IH l2 Heq' Hl Hr) as [-> ->]. split; congruence.
Qed.

Lemma main_shape env fuel ns s :
  (∃ s' evs, main env fuel ns s = (Ret tt, s', evs ++ [Ev_got_kill_signal true])
             ∧ Forall not_kill evs)
  ∨ ((∀ a, outcome (main env fuel ns s) ≠ Ret a)
     ∧ Forall not_kill (events (main env fuel ns s))).
Proof.
  unfold main.
  destruct (main_iter0_quiet ns s I) as [Hq _].
  destruct (main_iter0 ns s) as [[o s1] e1] eqn:Hiter0.
  rewrite (bind_eq _ _ _ _ _ _ Hiter0). simpl in Hq.
  destruct o as [r| |]; cbn.
  - destruct (main_loop_shape env fuel r ns s1) as [(s' & evs & Hrun & Hevs)|[Hno Hevs]].
    + left. rewrite Hrun. exists s', (e1 ++ evs).
      split; [cbn; rewrite app_assoc; reflexivity|].
      apply Forall_app; split; assumption.
    + right. split; [exact Hno|]. apply Forall_app; split; assumption.
  - right. split; [intros a [=]|assumption].
  - right. split; [intros a [=]|assumption].
Qed.

(** C2. Once [got_kill_signal] has returned true the spoke sends
    nothing more: a true flag is read at most once, [main] returns right
    after reading it (no solve, no report in between), and what follows
    in the life of the spoke is [finalize], which returns the stored
    bound and calls at most the [post_everything] hook. *)
Theorem no_report_after_kill_signal env fuel ns s pre post :
  events (run_spoke env fuel ns s) = pre ++ Ev_got_kill_signal true :: post →
  ∃ s1,
    main env fuel ns s = (Ret tt, s1, pre ++ [Ev_got_kill_signal true])
    ∧ Forall not_kill pre
    ∧ outcome (run_spoke env fuel ns s) = Ret (bound s1)
    ∧ (post = [] ∨ post = [Ev_hook "post_everything"])
    ∧ Forall (λ e, ∀ v, e ≠ Ev_send_bound v) post.
Proof.
  unfold run_spoke. intros Hev.
  destruct (main_shape env fuel ns s) as [(s1 & evs & Hrun & Hevs)|[Hno Hevs]].
  - rewrite (bind_eq _ _ _ _ _ _ Hrun) in Hev |- *. cbv beta iota in Hev |- *.
    destruct (finalize_run s1) as (s2 & Hfin & _).
    rewrite Hfin in Hev |- *.
    unfold outcome, state, events in Hev |- *. cbn [fst snd] in Hev |- *.
    rewrite <- app_assoc in Hev. cbn [app] in Hev.
    assert (Hpost : Forall (λ y, y ≠ Ev_got_kill_signal true)
              (if registered s1 && has_post_everything s1
               then [Ev_hook "post_everything"] else [])).
    { destruct (registered s1 && has_post_everything s1); repeat constructor; discriminate. }
    symmetry in Hev.
    destruct (split_at_unique _ _ _ _ _ Hev Hevs Hpost) as [-> ->].
    exists s1. repeat split; try assumption.
    + destruct (registered s1 && has_post_everything s1); auto.
    + destruct (registered s1 && has_post_everything s1); repeat constructor; discriminate.
  - exfalso.
    destruct (main env fuel ns s) as [[o s1] e1] eqn:Hrun.
    rewrite (bind_eq _ _ _ _ _ _ Hrun) in Hev.
    unfold outcome, state, events in Hev, Hno, Hevs. cbn [fst snd] in Hev, Hno, Hevs.
    assert (He : e1 = pre ++ Ev_got_kill_signal true :: post).
    { destruct o as [a| |]; [destruct (Hno a eq_refl)| |]; exact Hev. }
    subst e1. apply Forall_app in Hevs as [_ Hevs].
    apply Forall_cons in Hevs as [Hk _]. apply Hk. reflexivity.
Qed.

Lemma no_report_after_kill_signal_witness :
  let evs := events (run_spoke example_hub 3 false plain_spoke) in
  ∃ s1,
    main example_hub 3 false plain_spoke
      = (Ret tt, s1, take 12 evs ++ [Ev_got_kill_signal true])
    ∧ Forall not_kill (take 12 evs)
    ∧ outcome (run_spoke example_hub 3 false plain_spoke) = Ret (bound s1)
    ∧ (drop 13 evs = [] ∨ drop 13 evs = [Ev_hook "post_everything"])
    ∧ Forall (λ e, ∀ v, e ≠ Ev_send_bound v) (drop 13 evs).
Proof.
  apply (no_report_after_kill_signal example_hub 3 false plain_spoke).
  vm_compute. reflexivity.
Defined.

(** *** The bound is the probability-weighted expectation *)

Lemma Ebound_acc_solve w sps objs acc :
  Forall2 (λ sp v, relaxed_optimum sp w = Some v) sps objs →
  Ebound_acc acc (map (solve w) sps)
    = Some (acc + expectation (map _mpisppy_probability sps) objs)%Qc.
Proof.
  intros H. revert acc. induction H as [|sp v sps objs Hv _ IH]; intros acc.
  - cbn. f_equal. unfold expectation, sum_Qc. cbn. ring.
  - cbn. rewrite Hv, IH. f_equal.
    unfold expectation, sum_Qc. cbn. ring.
Qed.

Lemma Ebound_acc_None w sps acc :
  Exists (λ sp, relaxed_optimum sp w = None) sps →
  Ebound_acc acc (map (solve w) sps) = None.
Proof.
  intros H. revert acc. induction H as [sp sps Hn|sp sps _ IH]; intros acc; cbn.
  - rewrite Hn. reflexivity.
  - destruct (relaxed_optimum sp w); [apply IH|reflexivity].
Qed.

Lemma main_loop_head env fuel r ns s :
  ∃ rest, events (main_loop env fuel r ns s)
          = Ev_got_kill_signal (kill_signal env (kill_reads s)) :: rest.
Proof.
  rewrite main_loop_unfold.
  rewrite (bind_eq _ _ _ _ _ _ (got_kill_signal_run env s)).
  cbv beta iota. unfold events. cbn [snd]. eexists. reflexivity.
Qed.

(** C3. Before its first poll the spoke has done exactly this: the
    one-time preparation, one solve of its subproblems with the
    [USER_SOLUTION] warmstart under the weights it was started with (as
    the caller's [pre_iter0] hook, if any, left them), no read of the
    weight channel, and one [send_bound] of the resulting trivial bound.
    The first poll of the termination flag comes after that. *)
Theorem trivial_bound_reported_before_polling env fuel ns s :
  ready (registered s) s →
  ∃ vb rest,
    options (opt s) !! "verbose" = Some vb ∧
    let r := registered s in
    let p0 := ph_after_hook r "pre_iter0" s in
    let tb := Ebound_acc (Q2Qc 0) (map (solve (W p0)) (local_subproblems (opt s))) in
    events (main env fuel ns s) =
      [Ev_PH_Prep false; Ev_reenable_W; Ev_create_solvers]
      ++ hook_events r "pre_iter0"
      ++ [Ev_receive_nonant_bounds;
          Ev_solve_loop (current_solver_options p0) (tee_of (options (opt s)))
            vb ns USER_SOLUTION (W p0)]
      ++ hook_events r "post_iter0"
      ++ [Ev_send_bound tb]
      ++ hook_events r "post_iter0_after_sync"
      ++ Ev_got_kill_signal (kill_signal env (kill_reads s)) :: rest
    ∧ (r = false → W p0 = W (ph (opt s)))
    ∧ (∀ objs, Forall2 (λ sp v, relaxed_optimum sp (W p0) = Some v)
                 (local_subproblems (opt s)) objs →
         tb = Some (expectation (map _mpisppy_probability (local_subproblems (opt s))) objs)).
Proof.
  intros Hready.
  destruct (main_iter0_run s ns Hready)
    as (s1 & vb & Hv & Hrun & _ & _ & _ & Hk & _).
  cbv zeta in Hrun.
  destruct (main_loop_head env fuel (registered s) ns s1) as [rest Hrest].
  exists vb, rest. split; [exact Hv|]. cbv zeta.
  split; [|split].
  - unfold main. rewrite (bind_eq _ _ _ _ _ _ Hrun). cbv beta iota.
    unfold events at 1. cbn [snd]. rewrite Hrest, Hk.
    rewrite <- !app_assoc. reflexivity.
  - intros Hr. unfold ph_after_hook. rewrite Hr. reflexivity.
  - intros objs Hobjs. rewrite (Ebound_acc_solve _ _ _ _ Hobjs). f_equal. ring.
Qed.

Ltac ready_tac :=
  split;
  [ eexists; reflexivity
  | eexists; reflexivity
  | let Hr := fresh "Hr" in
    intros Hr;
    first [ vm_compute in Hr; discriminate Hr
          | clear Hr; unfold main_hooks;
            repeat (apply List.Forall_cons; [eexists; reflexivity|]);
            apply List.Forall_nil ] ].

Lemma trivial_bound_reported_before_polling_witness :
  ready (registered plain_spoke) plain_spoke ∧
  ∃ rest,
    events (main example_hub 3 false plain_spoke) =
      [Ev_PH_Prep false; Ev_reenable_W; Ev_create_solvers;
       Ev_receive_nonant_bounds;
       Ev_solve_loop PyNone (PyBool false) (PyBool false) false USER_SOLUTION
         [qc 0 1; qc 0 1];
       Ev_send_bound
         (Some (expectation [qc 6 10; qc 4 10]
                  [qc 5 1 * sum_Qc [qc 0 1; qc 0 1];
                   qc 10 1 * sum_Qc [qc 0 1; qc 0 1]]%Qc));
       Ev_got_kill_signal false] ++ rest.
Proof.
  assert (Hready : ready (registered plain_spoke) plain_spoke) by ready_tac.
  split; [exact Hready|].
  destruct (trivial_bound_reported_before_polling example_hub 3 false plain_spoke Hready)
    as (vb & rest & Hv & Hev & _ & Hexp).
  exists rest. rewrite Hev.
  injection Hv as <-.
  rewrite (Hexp [qc 5 1 * sum_Qc [qc 0 1; qc 0 1];
                 qc 10 1 * sum_Qc [qc 0 1; qc 0 1]]%Qc)
    by (repeat constructor).
  reflexivity.
Defined.

(** C4. A [WORKING] step: the spoke reads the new flat weight list, sets
    its local weights from it, re-solves its subproblems under these
    weights with the [PRIOR_SOLUTION] warmstart, and sends the
    probability-weighted expectation of their optima. *)
Theorem working_step_reports_expectation env r ns s ws objs :
  ready r s →
  published_Ws env (Ws_reads s) = Some ws →
  Forall2 (λ sp v, relaxed_optimum sp ws = Some v) (local_subproblems (opt s)) objs →
  ∃ s' vb,
    options (opt s) !! "verbose" = Some vb ∧
    let probs := map _mpisppy_probability (local_subproblems (opt s)) in
    let b := Some (expectation probs objs) in
    main_loop_body env r ns s =
      (Ret tt, s',
       [Ev_update_Ws (Some ws)]
       ++ hook_events r "miditer"
       ++ [Ev_W_from_flat_list ws; Ev_receive_nonant_bounds;
           Ev_solve_loop (current_solver_options (ph_after_hook r "miditer" s))
             (tee_of (options (opt s))) vb ns PRIOR_SOLUTION ws]
       ++ hook_events r "enditer"
       ++ [Ev_send_bound b]
       ++ hook_events r "enditer_after_sync")
    ∧ bound s' = b
    ∧ localWs s' = ws.
Proof.
  intros Hready Hp Hobjs.
  destruct (working_step_run env r s ns ws Hready Hp)
    as (s' & vb & Hv & Hrun & _ & Hb & _ & _ & Hl).
  cbv zeta in Hrun, Hb.
  rewrite (Ebound_acc_solve _ _ _ _ Hobjs) in Hrun, Hb.
  assert (Hz : ∀ x : Qc, (Q2Qc 0 + x)%Qc = x) by (intros; ring).
  rewrite Hz in Hrun, Hb.
  exists s', vb. split; [exact Hv|]. cbv zeta.
  split; [exact Hrun|]. split; [exact Hb|exact Hl].
Qed.

(** The scenario of the design document: 0.6 * 10 + 0.4 * 20 = 14. *)
Lemma expectation_example :
  expectation [qc 6 10; qc 4 10] [qc 10 1; qc 20 1] = qc 14 1.
Proof. apply Qc_is_canon. reflexivity. Qed.

Lemma working_step_reports_expectation_witness :
  ready false plain_spoke ∧
  published_Ws example_hub (Ws_reads plain_spoke) = Some [qc 5 1; qc (-3) 1] ∧
  Forall2 (λ sp v, relaxed_optimum sp [qc 5 1; qc (-3) 1] = Some v)
    (local_subproblems (opt plain_spoke)) [qc 10 1; qc 20 1] ∧
  ∃ s',
    main_loop_body example_hub false false plain_spoke =
      (Ret tt, s',
       [Ev_update_Ws (Some [qc 5 1; qc (-3) 1]);
        Ev_W_from_flat_list [qc 5 1; qc (-3) 1];
        Ev_receive_nonant_bounds;
        Ev_solve_loop PyNone (PyBool false) (PyBool false) false PRIOR_SOLUTION
          [qc 5 1; qc (-3) 1];
        Ev_send_bound (Some (qc 14 1))])
    ∧ bound s' = Some (qc 14 1).
Proof.
  assert (Hready : ready false plain_spoke) by ready_tac.
  assert (Hp : published_Ws example_hub (Ws_reads plain_spoke)
               = Some [qc 5 1; qc (-3) 1]) by reflexivity.
  assert (Hobjs : Forall2 (λ sp v, relaxed_optimum sp [qc 5 1; qc (-3) 1] = Some v)
                    (local_subproblems (opt plain_spoke)) [qc 10 1; qc 20 1]).
  { repeat constructor; cbn; f_equal; apply Qc_is_canon; reflexivity. }
  repeat (split; [assumption|]).
  destruct (working_step_reports_expectation example_hub false false plain_spoke
              _ _ Hready Hp Hobjs) as (s' & vb & Hv & Hrun & Hb & _).
  exists s'. cbv zeta in Hrun, Hb.
  injection Hv as <-.
  change (map _mpisppy_probability (local_subproblems (opt plain_spoke)))
    with [qc 6 10; qc 4 10] in Hrun, Hb.
  rewrite expectation_example in Hrun, Hb.
  split; [exact Hrun|exact Hb].
Defined.

(** C5. On a poll that finds no new weight vector, the subgradient step
    (consensus point, weight update, re-solve, speculative report) is
    taken exactly when the option ["subgradient_while_waiting"] holds a
    true value; it is off when the option is absent, and then the poll
    does no work and sends no report. *)
Theorem idle_step_is_opt_in env r ns s :
  ready r s →
  published_Ws env (Ws_reads s) = None →
  ∃ s' vb,
    options (opt s) !! "verbose" = Some vb ∧
    let on := match options (opt s) !! "subgradient_while_waiting" with
              | Some v => truthy v
              | None => false
              end in
    let sps := local_subproblems (opt s) in
    let p := Update_W env sps (Compute_Xbar env sps (ph (opt s))) in
    let b := Ebound_acc (Q2Qc 0) (map (solve (W p)) sps) in
    main_loop_body env r ns s =
      (Ret tt, s',
       Ev_update_Ws None ::
       if on then
         [Ev_Compute_Xbar; Ev_Update_W; Ev_receive_nonant_bounds;
          Ev_solve_loop (current_solver_options p) (tee_of (options (opt s)))
            vb ns PRIOR_SOLUTION (W p)]
         ++ send_events b
       else [])
    ∧ (on = false →
       s' = set_Ws_reads (S (Ws_reads s)) s ∧
       ∀ ws, do_while_waiting_for_new_Ws env ns ws s = (Ret tt, s, [])).
Proof.
  intros Hready Hp.
  assert (Hon : subgradient_on s =
                match options (opt s) !! "subgradient_while_waiting" with
                | Some v => truthy v
                | None => false
                end).
  { unfold subgradient_on. destruct (options (opt s) !! _); reflexivity. }
  cbv zeta. rewrite <- Hon.
  destruct (subgradient_on s) eqn:Hsub.
  - destruct (idle_step_on env r s ns Hready Hp Hsub)
      as (s' & vb & Hv & Hrun & _).
    exists s', vb. split; [exact Hv|]. split; [exact Hrun|]. intros [=].
  - destruct Hready as [[vb Hv] _ _].
    exists (set_Ws_reads (S (Ws_reads s)) s), vb. split; [exact Hv|].
    split; [apply idle_step_off; assumption|].
    intros _. split; [reflexivity|].
    intros ws. apply do_while_waiting_off. exact Hsub.
Qed.

Lemma idle_step_is_opt_in_witness :
  (ready false plain_spoke ∧
   published_Ws silent_hub (Ws_reads plain_spoke) = None ∧
   main_loop_body silent_hub false false plain_spoke
     = (Ret tt, set_Ws_reads 1 plain_spoke, [Ev_update_Ws None])) ∧
  (ready false subgradient_spoke ∧
   published_Ws silent_hub (Ws_reads subgradient_spoke) = None ∧
   ∃ b, events (main_loop_body silent_hub false false subgradient_spoke)
        = [Ev_update_Ws None; Ev_Compute_Xbar; Ev_Update_W;
           Ev_receive_nonant_bounds;
           Ev_solve_loop PyNone (PyBool false) (PyBool false) false PRIOR_SOLUTION
             [qc 0 1; qc 0 1];
           Ev_send_bound (Some b)]).
Proof.
  assert (Hr1 : ready false plain_spoke) by ready_tac.
  assert (Hr2 : ready false subgradient_spoke) by ready_tac.
  split; (split; [assumption|]); (split; [reflexivity|]).
  - destruct (idle_step_is_opt_in silent_hub false false plain_spoke Hr1 eq_refl)
      as (s' & vb & Hv & Hrun & Hoff).
    cbv zeta in Hrun, Hoff.
    destruct (Hoff eq_refl) as [-> _]. exact Hrun.
  - destruct (idle_step_is_opt_in silent_hub false false subgradient_spoke Hr2 eq_refl)
      as (s' & vb & Hv & Hrun & _).
    cbv zeta in Hrun. rewrite Hrun. injection Hv as <-.
    eexists. reflexivity.
Defined.

(** *** A solve without a usable bound

    The two guarded paths: a [WORKING] step and an idle-time subgradient
    step whose solve yields no bound send nothing and the loop goes on. *)
Lemma working_step_without_bound env r ns s ws :
  ready r s →
  published_Ws env (Ws_reads s) = Some ws →
  Ebound_acc (Q2Qc 0) (map (solve ws) (local_subproblems (opt s))) = None →
  outcome (main_loop_body env r ns s) = Ret tt ∧
  Forall (λ e, ∀ v, e ≠ Ev_send_bound v) (events (main_loop_body env r ns s)) ∧
  bound (state (main_loop_body env r ns s)) = bound s.
Proof.
  intros Hready Hp Hb.
  destruct (working_step_run env r s ns ws Hready Hp)
    as (s' & vb & Hv & Hrun & _ & Hbd & _).
  cbv zeta in Hrun, Hbd. rewrite Hb in Hrun, Hbd. rewrite Hrun.
  split; [reflexivity|]. split; [|exact Hbd].
  unfold events. cbn [snd]. destruct r; cbn; repeat constructor; discriminate.
Qed.

Lemma idle_step_without_bound env r ns s :
  ready r s →
  published_Ws env (Ws_reads s) = None →
  (let sps := local_subproblems (opt s) in
   let p := Update_W env sps (Compute_Xbar env sps (ph (opt s))) in
   Ebound_acc (Q2Qc 0) (map (solve (W p)) sps) = None) →
  outcome (main_loop_body env r ns s) = Ret tt ∧
  Forall (λ e, ∀ v, e ≠ Ev_send_bound v) (events (main_loop_body env r ns s)).
Proof.
  intros Hready Hp Hb. cbv zeta in Hb.
  destruct (subgradient_on s) eqn:Hsub.
  - destruct (idle_step_on env r s ns Hready Hp Hsub)
      as (s' & vb & Hv & Hrun & _).
    cbv zeta in Hrun. rewrite Hb in Hrun. rewrite Hrun.
    split; [reflexivity|]. unfold events. cbn [snd].
    cbn; repeat constructor; discriminate.
  - rewrite (idle_step_off env r s ns Hp Hsub).
    split; [reflexivity|]. repeat constructor. discriminate.
Qed.

(** The unguarded path: the trivial bound of iteration 0 is passed to
    [send_bound] whatever it is. *)
Lemma iter0_without_bound ns s :
  ready (registered s) s →
  (let p0 := ph_after_hook (registered s) "pre_iter0" s in
   Ebound_acc (Q2Qc 0) (map (solve (W p0)) (local_subproblems (opt s))) = None) →
  Ev_send_bound None ∈ events (main_iter0 ns s).
Proof.
  intros Hready Hb. cbv zeta in Hb.
  destruct (main_iter0_run s ns Hready) as (s' & vb & Hv & Hrun & _).
  cbv zeta in Hrun. rewrite Hb in Hrun. rewrite Hrun.
  unfold events. cbn [snd].
  rewrite !elem_of_app. do 4 right. left. apply list_elem_of_singleton. reflexivity.
Qed.

(** C1, at the failing input: one subproblem with an infeasible
    relaxation, the termination flag already raised.  The solve of
    iteration 0 yields no bound, and the spoke calls [send_bound] with
    the absent value. *)
Theorem iter0_sends_absent_bound :
  main stopped_hub 0 false infeasible_spoke =
    (Ret tt,
     state (main stopped_hub 0 false infeasible_spoke),
     [Ev_PH_Prep false; Ev_reenable_W; Ev_create_solvers;
      Ev_receive_nonant_bounds;
      Ev_solve_loop PyNone (PyBool false) (PyBool false) false USER_SOLUTION
        [qc 0 1; qc 0 1];
      Ev_send_bound None;
      Ev_got_kill_signal true])
  ∧ trivial_bound (state (main stopped_hub 0 false infeasible_spoke)) = None
  ∧ bound (state (main stopped_hub 0 false infeasible_spoke)) = None.
Proof. vm_compute. repeat split; reflexivity. Qed.

(** *** The loop goes on until the flag is raised, and then returns *)

Lemma main_loop_body_returns env r ns s :
  ready r s →
  ∃ s' evs,
    main_loop_body env r ns s = (Ret tt, s', evs)
    ∧ same_config s s' ∧ kill_reads s' = kill_reads s.
Proof.
  intros Hready.
  destruct (published_Ws env (Ws_reads s)) as [ws|] eqn:Hp.
  - destruct (working_step_run env r s ns ws Hready Hp)
      as (s' & vb & _ & Hrun & Hcfg & _ & Hk & _).
    eauto.
  - destruct (subgradient_on s) eqn:Hsub.
    + destruct (idle_step_on env r s ns Hready Hp Hsub)
        as (s' & vb & _ & Hrun & Hcfg & _ & Hk & _).
      eauto.
    + rewrite (idle_step_off env r s ns Hp Hsub).
      eexists _, _. split; [reflexivity|]. repeat split.
Qed.

Lemma main_loop_returns env n :
  ∀ fuel r ns s,
    (n ≤ fuel)%nat →
    kill_signal env (kill_reads s + n) = true →
    ready r s →
    outcome (main_loop env fuel r ns s) = Ret tt.
Proof.
  induction n as [|n IH]; intros fuel r ns s Hfuel Hkill Hready.
  - rewrite Nat.add_0_r in Hkill. rewrite main_loop_unfold.
    rewrite (bind_eq _ _ _ _ _ _ (got_kill_signal_run env s)).
    rewrite Hkill. reflexivity.
  - rewrite main_loop_unfold.
    rewrite (bind_eq _ _ _ _ _ _ (got_kill_signal_run env s)).
    destruct (kill_signal env (kill_reads s)); [reflexivity|].
    destruct fuel as [|fuel]; [lia|]. cbv beta iota.
    set (s0 := set_kill_reads (S (kill_reads s)) s).
    assert (Hready0 : ready r s0).
    { eapply ready_same_config; [|exact Hready]. repeat split. }
    destruct (main_loop_body_returns env r ns s0 Hready0)
      as (s1 & evs & Hrun & Hcfg & Hk).
    rewrite (bind_eq _ _ _ _ _ _ Hrun). cbv beta iota.
    unfold outcome at 1. cbn [fst]. fold (outcome (main_loop env fuel r ns s1)).
    apply IH; [lia| |eapply ready_same_config; eassumption].
    rewrite Hk. subst s0. cbn. rewrite <- Hkill. f_equal. lia.
Qed.

(** The spoke returns once the hub raises the flag: [n] passes through
    the loop suffice when the flag is up at the [n]-th poll from now. *)
Lemma spoke_returns_when_killed env fuel ns s n :
  (n ≤ fuel)%nat →
  kill_signal env (kill_reads s + n) = true →
  ready (registered s) s →
  ∃ b, outcome (run_spoke env fuel ns s) = Ret b.
Proof.
  intros Hfuel Hkill Hready.
  destruct (main_iter0_run s ns Hready)
    as (s1 & vb & _ & Hrun & Hcfg & _ & _ & Hk & _).
  cbv zeta in Hrun.
  assert (Hmain : outcome (main env fuel ns s) = Ret tt).
  { unfold main. rewrite (bind_eq _ _ _ _ _ _ Hrun). cbv beta iota.
    unfold outcome at 1. cbn [fst].
    apply (main_loop_returns env n); [assumption| |].
    - rewrite Hk. exact Hkill.
    - eapply ready_same_config; eassumption. }
  unfold run_spoke.
  destruct (main env fuel ns s) as [[o s2] e2] eqn:Hm.
  unfold outcome in Hmain. cbn [fst] in Hmain. subst o.
  rewrite (bind_eq _ _ _ _ _ _ Hm). cbv beta iota.
  destruct (finalize_run s2) as (s3 & Hfin & _). rewrite Hfin.
  eexists. reflexivity.
Qed.

(** *** The stored bound is the last one reported *)

Lemma tracks_bind {A B} (m : Sp A) (k : A → Sp B) :
  tracks m → (∀ a, tracks (k a)) → tracks (bind m k).
Proof.
  intros Hm Hk s. specialize (Hm s). unfold bind.
  destruct (m s) as [[[a| |] s1] e1]; cbn in *; try exact Hm.
  specialize (Hk a s1). destruct (k a s1) as [[o s2] e2]; cbn in *.
  unfold reports in *. rewrite omap_app, last_app.
  destruct (last (omap report_of e2)); cbn in *; congruence.
Qed.

Lemma tracks_ret {A} (a : A) : tracks (ret a).
Proof. intros s. reflexivity. Qed.

Lemma tracks_gets {A} (f : Spoke → A) : tracks (gets f).
Proof. intros s. reflexivity. Qed.

Lemma tracks_raise {A} x : tracks (raise (A := A) x).
Proof. intros s. reflexivity. Qed.

Lemma tracks_out_of_fuel {A} : tracks (out_of_fuel (A := A)).
Proof. intros s. reflexivity. Qed.

Lemma tracks_modify f : (∀ s, bound (f s) = bound s) → tracks (modify f).
Proof. intros H s. cbn. apply H. Qed.

Lemma tracks_emit e : report_of e = None → tracks (emit e).
Proof. intros H s. cbn. rewrite H. reflexivity. Qed.

Lemma tracks_send_bound v : tracks (send_bound v).
Proof. intros s. reflexivity. Qed.

Lemma tracks_when b (m : Sp unit) : tracks m → tracks (when b m).
Proof. destruct b; [auto|]. intros _. apply tracks_ret. Qed.

Ltac tracks_step :=
  lazymatch goal with
  | |- tracks (bind _ _) => apply tracks_bind; [|intros ?]
  | |- tracks (ret _) => apply tracks_ret
  | |- tracks (gets _) => apply tracks_gets
  | |- tracks (raise _) => apply tracks_raise
  | |- tracks out_of_fuel => apply tracks_out_of_fuel
  | |- tracks (send_bound _) => apply tracks_send_bound
  | |- tracks (modify _) => apply tracks_modify; intros ?; reflexivity
  | |- tracks (modify_ph _) => apply tracks_modify; intros ?; reflexivity
  | |- tracks (emit _) => apply tracks_emit; reflexivity
  | |- tracks (when _ _) => apply tracks_when
  | |- tracks (match ?x with _ => _ end) => destruct x
  end.

Ltac tracks_unfold :=
  progress unfold opt_option, getitem, py_in, PH_Prep, _reenable_W,
    _create_solvers, receive_nonant_bounds, solve_loop, Ebound,
    W_from_flat_list, call_hook, got_kill_signal, update_Ws,
    opt_Compute_Xbar, opt_Update_W, lagrangian_prep, tee_rank0_solves,
    lagrangian, finalize, _set_weights_and_solve,
    do_while_waiting_for_new_Ws, main_iter0, main_loop_body.

Ltac tracks_auto := repeat first [ tracks_step | tracks_unfold ].

Lemma main_iter0_tracks ns : tracks (main_iter0 ns).
Proof. tracks_auto. Qed.

Lemma main_loop_body_tracks env r ns : tracks (main_loop_body env r ns).
Proof. tracks_auto. Qed.

Lemma main_loop_tracks env fuel r ns : tracks (main_loop env fuel r ns).
Proof.
  induction fuel as [|fuel IH]; rewrite main_loop_unfold.
  - tracks_auto.
  - apply tracks_bind; [tracks_auto|]. intros [|]; [apply tracks_ret|].
    apply tracks_bind; [apply main_loop_body_tracks|]. intros _. exact IH.
Qed.

Lemma main_tracks env fuel ns : tracks (main env fuel ns).
Proof.
  unfold main. apply tracks_bind; [apply main_iter0_tracks|].
  intros r. apply main_loop_tracks.
Qed.

Lemma reporting_bind_l {A B} (m : Sp A) (k : A → Sp B) :
  reporting m → reporting (bind m k).
Proof.
  intros Hm s b. specialize (Hm s). unfold bind.
  destruct (m s) as [[[a| |] s1] e1]; cbn in *; try discriminate.
  destruct (k a s1) as [[o s2] e2]; cbn. intros _.
  unfold reports in *. rewrite omap_app.
  intros [He _]%app_eq_nil. exact (Hm a eq_refl He).
Qed.

Lemma reporting_bind_r {A B} (m : Sp A) (k : A → Sp B) :
  (∀ a, reporting (k a)) → reporting (bind m k).
Proof.
  intros Hk s b. unfold bind.
  destruct (m s) as [[[a| |] s1] e1]; cbn in *; try discriminate.
  specialize (Hk a s1). destruct (k a s1) as [[o s2] e2]; cbn in *. intros Ho.
  unfold reports in *. rewrite omap_app.
  intros [_ He]%app_eq_nil. exact (Hk b Ho He).
Qed.

Lemma reporting_send_bound v : reporting (send_bound v).
Proof. intros s a _. discriminate. Qed.

Lemma main_iter0_reporting ns : reporting (main_iter0 ns).
Proof.
  unfold main_iter0.
  repeat first
    [ solve [apply reporting_bind_l; apply reporting_send_bound]
    | apply reporting_bind_r; intros ? ].
Qed.

Lemma main_reporting env fuel ns : reporting (main env fuel ns).
Proof. unfold main. apply reporting_bind_l, main_iter0_reporting. Qed.

(** C6. [finalize] returns the spoke's current bound, which is the most
    recent value the spoke reported; it stores it as [final_bound]; and
    it calls the [post_everything] hook, before returning, when an
    extension is registered and its object has that attribute. *)
Theorem finalize_returns_last_report env fuel ns s b :
  outcome (run_spoke env fuel ns s) = Ret b →
  ∃ s1 evs s2,
    main env fuel ns s = (Ret tt, s1, evs)
    ∧ last (reports evs) = Some b
    ∧ bound s1 = b
    ∧ finalize s1 =
        (Ret b, s2,
         if registered s1 && has_post_everything s1
         then [Ev_hook "post_everything"] else [])
    ∧ final_bound s2 = b
    ∧ run_spoke env fuel ns s =
        (Ret b, s2,
         evs ++ if registered s1 && has_post_everything s1
                then [Ev_hook "post_everything"] else []).
Proof.
  intros Hout. unfold run_spoke in *.
  pose proof (main_tracks env fuel ns s) as Htr.
  pose proof (main_reporting env fuel ns s) as Hrep.
  destruct (main env fuel ns s) as [[o s1] evs] eqn:Hmain.
  rewrite (bind_eq _ _ _ _ _ _ Hmain) in Hout |- *.
  destruct o as [[]| |]; try discriminate. cbv beta iota in Hout |- *.
  destruct (finalize_run s1) as (s2 & Hfin & _ & Hfb & _).
  rewrite Hfin in Hout |- *.
  unfold outcome, state, events in Hout, Htr, Hrep |- *.
  cbn [fst snd] in Hout, Htr, Hrep |- *.
  injection Hout as <-.
  exists s1, evs, s2. repeat split; try assumption; try reflexivity.
  specialize (Hrep tt eq_refl).
  destruct (last (reports evs)) as [x|] eqn:Hlast.
  - cbn in Htr. congruence.
  - apply last_None in Hlast. contradiction.
Qed.

Lemma finalize_returns_last_report_witness :
  let r := run_spoke example_hub 3 false plain_spoke in
  outcome r = Ret (bound (state r)) ∧
  last (reports (events r)) = Some (bound (state r)) ∧
  final_bound (state r) = bound (state r).
Proof.
  cbv zeta.
  assert (Hout : outcome (run_spoke example_hub 3 false plain_spoke)
                 = Ret (bound (state (run_spoke example_hub 3 false plain_spoke)))).
  { vm_compute. reflexivity. }
  split; [exact Hout|].
  destruct (finalize_returns_last_report example_hub 3 false plain_spoke _ Hout)
    as (s1 & evs & s2 & Hmain & Hlast & Hb & Hfin & Hfb & Hrun).
  rewrite Hrun in Hlast, Hfb |- *.
  unfold state, events in *. cbn [fst snd] in *.
  split; [|exact Hfb].
  unfold reports in *. rewrite omap_app, last_app.
  destruct (registered s1 && has_post_everything s1); cbn; exact Hlast.
Defined.

(** *** Extension hooks *)


















(** *** Runs that a missing hook stops *)









End LagrangianSpec.

(** ** Properties of the x-hat evaluator *)

Module XhatSpec.
Import Xhat.

(** *** The solvers are created once *)

Lemma creates_app e1 e2 : creates (e1 ++ e2) = creates e1 + creates e2.
Proof. unfold creates. rewrite filter_app, length_app. reflexivity. Qed.

Lemma lazy_ok_bind {A B} (m : Xh A) (k : A → Xh B) :
  lazy_ok m → (∀ a, lazy_ok (k a)) → lazy_ok (bind m k).
Proof.
  intros Hm Hk x. specialize (Hm x). unfold bind.
  destruct (m x) as [[[a| |] x1] e1];
    unfold state, events in *; cbn [fst snd] in *; try exact Hm.
  specialize (Hk a x1). destruct (k a x1) as [[o x2] e2].
  unfold state, events in *; cbn [fst snd] in *.
  rewrite creates_app. lia.
Qed.

Lemma lazy_ok_ret {A} (a : A) : lazy_ok (ret a).
Proof. intros x. reflexivity. Qed.

Lemma lazy_ok_gets {A} (f : Xhat_Eval → A) : lazy_ok (gets f).
Proof. intros x. reflexivity. Qed.

Lemma lazy_ok_raise {A} e : lazy_ok (raise (A := A) e).
Proof. intros x. reflexivity. Qed.

Lemma lazy_ok_modify f :
  (∀ x, _subproblems_solvers_created (f x) = _subproblems_solvers_created x) →
  lazy_ok (modify f).
Proof. intros H x. unfold flag. cbn. rewrite H. reflexivity. Qed.

Lemma lazy_ok_emit e : is_create e = false → lazy_ok (emit e).
Proof.
  intros H x. unfold creates. cbn. rewrite H. reflexivity.
Qed.

Lemma lazy_ok_when b (m : Xh unit) : lazy_ok m → lazy_ok (when b m).
Proof. destruct b; [auto|]. intros _. apply lazy_ok_ret. Qed.

Lemma lazy_ok_for_each {A} (l : list A) (body : A → Xh unit) :
  (∀ a, lazy_ok (body a)) → lazy_ok (for_each l body).
Proof.
  intros Hb. induction l as [|a l IH]; cbn.
  - apply lazy_ok_ret.
  - apply lazy_ok_bind; [apply Hb|]. intros _. exact IH.
Qed.

Lemma lazy_ok_map_m {A B} (l : list A) (body : A → Xh B) :
  (∀ a, lazy_ok (body a)) → lazy_ok (map_m l body).
Proof.
  intros Hb. induction l as [|a l IH]; cbn.
  - apply lazy_ok_ret.
  - apply lazy_ok_bind; [apply Hb|]. intros b.
    apply lazy_ok_bind; [exact IH|]. intros bs. apply lazy_ok_ret.
Qed.

Lemma lazy_create_first x :
  _subproblems_solvers_created x = false →
  _lazy_create_solvers x = (Ret tt, set_created true x, [Ev_create_solvers false]).
Proof. intros H. unfold _lazy_create_solvers, bind, gets. rewrite H. reflexivity. Qed.

Lemma lazy_create_again x :
  _subproblems_solvers_created x = true →
  _lazy_create_solvers x = (Ret tt, x, []).
Proof. intros H. unfold _lazy_create_solvers, bind, gets. rewrite H. reflexivity. Qed.

Lemma lazy_ok_lazy_create : lazy_ok _lazy_create_solvers.
Proof.
  intros x. destruct (_subproblems_solvers_created x) eqn:H.
  - rewrite (lazy_create_again x H). unfold flag. cbn. rewrite H. reflexivity.
  - rewrite (lazy_create_first x H). unfold flag. cbn. rewrite H. reflexivity.
Qed.

Lemma creates_none evs : Forall (λ e, is_create e = false) evs → creates evs = 0.
Proof.
  unfold creates. induction 1 as [|e evs He _ IH]; [reflexivity|].
  cbn. rewrite He. exact IH.
Qed.

Lemma update_var_quiet p v : Forall (λ e, is_create e = false) (update_var p v).
Proof. destruct p; repeat constructor. Qed.

Lemma in_place_quiet {A} (step : A → A * list Event * option Exn) l :
  quiet_step step → Forall (λ e, is_create e = false) (in_place step l).1.2.
Proof.
  intros Hs. induction l as [|a l IH]; cbn; [constructor|].
  specialize (Hs a). destruct (step a) as [[a' evs] [e|]]; cbn in *; [exact Hs|].
  destruct (in_place step l) as [[r evs'] x]; cbn in *.
  apply Forall_app; split; assumption.
Qed.

Lemma on_vars_quiet step : quiet_step step → quiet_step (on_vars step).
Proof.
  intros Hs n. unfold on_vars.
  pose proof (in_place_quiet step (nonant_vardata_list n) Hs) as H.
  destruct (in_place step (nonant_vardata_list n)) as [[vs evs] x]. exact H.
Qed.

Lemma on_nodes_quiet step : quiet_step step → quiet_step (on_nodes step).
Proof.
  intros Hs n. unfold on_nodes.
  pose proof (in_place_quiet step (_mpisppy_node_list n) Hs) as H.
  destruct (in_place step (_mpisppy_node_list n)) as [[vs evs] x]. exact H.
Qed.

Lemma fix_vars_from_quiet bias p vals vs :
  Forall (λ e, is_create e = false) (fix_vars_from bias p vals vs).1.2.
Proof.
  revert vals. induction vs as [|v vs IH]; intros [|q vals]; cbn; try constructor.
  specialize (IH vals).
  destruct (fix_vars_from bias p vals vs) as [[r evs] x]; cbn in *.
  destruct (surrogate v); [exact IH|].
  destruct (rounded bias v q); cbn; [constructor|].
  apply Forall_app; split; [apply update_var_quiet|exact IH].
Qed.

Lemma scenario_updates_quiet x k ms names :
  Forall (λ e, is_create e = false) (scenario_updates x k ms names).1.
Proof.
  induction names as [|sname names IH]; cbn; [constructor|].
  destruct ms as [ms|]; [|constructor].
  case_bool_decide; [|constructor].
  destruct (models x !! sname) as [scen|]; [|constructor].
  destruct (scenario_updates x k (Some ms) names) as [evs' e]; cbn in *.
  apply Forall_app; split; [|exact IH].
  apply Forall_concat, Forall_map, Forall_forall. intros n _.
  apply Forall_concat, Forall_map, Forall_forall. intros v _.
  destruct (surrogate v); repeat constructor.
Qed.

Lemma bundle_updates_quiet x subs :
  Forall (λ e, is_create e = false) (bundle_updates x subs).1.
Proof.
  induction subs as [|k rest IH]; cbn; [constructor|].
  destruct (models x !! k) as [s|]; [|constructor].
  destruct (persistent s); [|constructor].
  destruct (extract_num k) as [bunnum|]; [|constructor].
  pose proof (scenario_updates_quiet x k (names_in_bundles x !! bunnum)
                (local_scenarios x)) as Hq.
  destruct (scenario_updates _ _ _ _) as [evs [e|]]; cbn in *; [exact Hq|].
  destruct (bundle_updates x rest) as [evs' e]; cbn in *.
  apply Forall_app; split; assumption.
Qed.

Lemma lazy_ok_mutate_model k step : quiet_step step → lazy_ok (mutate_model k step).
Proof.
  intros Hs x. unfold mutate_model.
  destruct (models x !! k) as [s|]; [|reflexivity].
  specialize (Hs s). destruct (step s) as [[s' evs] [e|]];
    unfold state, events; cbn [fst snd] in *;
    rewrite (creates_none _ Hs); reflexivity.
Qed.

Ltac lazy_step :=
  lazymatch goal with
  | |- lazy_ok (bind _ _) => apply lazy_ok_bind; [|intros ?]
  | |- lazy_ok (ret _) => apply lazy_ok_ret
  | |- lazy_ok (gets _) => apply lazy_ok_gets
  | |- lazy_ok (raise _) => apply lazy_ok_raise
  | |- lazy_ok _lazy_create_solvers => apply lazy_ok_lazy_create
  | |- lazy_ok (modify _) => apply lazy_ok_modify; intros ?; reflexivity
  | |- lazy_ok (emit _) => apply lazy_ok_emit; reflexivity
  | |- lazy_ok (when _ _) => apply lazy_ok_when
  | |- lazy_ok (for_each _ _) => apply lazy_ok_for_each; intros ?
  | |- lazy_ok (map_m _ _) => apply lazy_ok_map_m; intros ?
  | |- lazy_ok (mutate_model _ _) => apply lazy_ok_mutate_model
  | |- lazy_ok (let _ := _ in _) => cbv zeta
  | |- lazy_ok (match ?x with _ => _ end) => destruct x
  end.

Ltac lazy_unfold :=
  progress unfold getitem, model, Allreduce_SUM, Allreduce, lift, base_solve_one,
    _fix_nonants, base_Eobjective, infeas_prob, saved_objective, solve_one, solve_loop,
    Eobjective, the_solver_options, evaluate_one, evaluate,
    fix_nonants_upto_stage, _fix_nonants_at_value, solve_for_incumbent,
    calculate_incumbent, call.

Ltac lazy_auto := repeat first [ lazy_step | lazy_unfold ].

Lemma lazy_ok_fix_nonants_at_value : lazy_ok _fix_nonants_at_value.
Proof.
  unfold _fix_nonants_at_value. lazy_auto.
  - intros s. cbv beta. apply on_nodes_quiet, on_vars_quiet. intros v. cbn.
    destruct (surrogate v); [constructor|].
    destruct (rounded _ v (_value v)); cbn; [constructor|apply update_var_quiet].
  - intros x. pose proof (bundle_updates_quiet x (local_subproblems x)) as Hq.
    destruct (bundle_updates x (local_subproblems x)) as [evs [e|]];
      unfold state, events; cbn [fst snd] in *;
      rewrite (creates_none _ Hq); reflexivity.
Qed.

Ltac upto_stage_quiet :=
  let s := fresh "s" in
  let node := fresh "node" in
  let vals := fresh "vals" in
  intros s; cbv beta; apply on_nodes_quiet; intros node; cbn;
  destruct (stage node <=? _)%Z; [|constructor];
  destruct (_ !! name node) as [[vals|]|]; try constructor;
  case_bool_decide; [constructor|];
  match goal with
  | |- context [fix_vars_from ?b ?p vals ?vs] =>
      let Hq := fresh "Hq" in
      pose proof (fix_vars_from_quiet b p vals vs) as Hq;
      destruct (fix_vars_from b p vals vs) as [[? ?] ?]; exact Hq
  end.

Ltac lazy_auto ::=
  repeat first [ apply lazy_ok_fix_nonants_at_value | lazy_step | lazy_unfold ];
  try upto_stage_quiet.

Lemma lazy_ok_call c : lazy_ok (call c).
Proof. destruct c; cbn [call]; lazy_auto. Qed.

Lemma bind_ret_tt_state {A} (m : Xh A) x :
  state (bind m (λ _, ret tt) x) = state (m x).
Proof.
  unfold bind. destruct (m x) as [[[a| |] x1] e1]; reflexivity.
Qed.

Lemma lazy_ok_keeps_flag {A} (m : Xh A) x :
  lazy_ok m → flag x = 1 → flag (state (m x)) = 1.
Proof.
  intros Hm Hx. specialize (Hm x). unfold flag in *.
  destruct (_subproblems_solvers_created (state (m x))); lia.
Qed.

Lemma starts_lazy {A} (k : unit → Xh A) x :
  lazy_ok (k tt) → flag (state (bind _lazy_create_solvers k x)) = 1.
Proof.
  intros Hk.
  assert (H : ∃ x1 e1, _lazy_create_solvers x = (Ret tt, x1, e1) ∧ flag x1 = 1).
  { destruct (_subproblems_solvers_created x) eqn:Hc.
    - rewrite (lazy_create_again x Hc). eexists _, _. split; [reflexivity|].
      unfold flag. rewrite Hc. reflexivity.
    - rewrite (lazy_create_first x Hc). eexists _, _. split; reflexivity. }
  destruct H as (x1 & e1 & Hrun & Hf).
  rewrite (bind_eq _ _ _ _ _ _ Hrun). cbv beta iota.
  unfold state at 1. cbn [fst snd]. apply lazy_ok_keeps_flag; assumption.
Qed.

(** Every public operation leaves the flag up, however it ends. *)
Lemma call_sets_flag c x : flag (state (call c x)) = 1.
Proof.
  destruct c; cbn [call]; rewrite ?bind_ret_tt_state.
  - unfold solve_one. apply starts_lazy. lazy_auto.
  - unfold solve_loop. apply starts_lazy. lazy_auto.
  - unfold Eobjective. apply starts_lazy. lazy_auto.
  - unfold evaluate_one. apply starts_lazy. lazy_auto.
  - unfold evaluate. apply starts_lazy. lazy_auto.
  - unfold fix_nonants_upto_stage. apply starts_lazy. lazy_auto.
  - unfold calculate_incumbent, solve_for_incumbent.
    set (rest := λ _ : unit, bind infeas_prob _).
    match goal with
    | |- flag (state (bind (bind _lazy_create_solvers ?k) rest x)) = 1 =>
        assert (Hk : flag (state (bind _lazy_create_solvers k x)) = 1)
          by (apply starts_lazy; lazy_auto);
        assert (Hrest : lazy_ok (rest tt)) by (subst rest; lazy_auto);
        generalize dependent (bind _lazy_create_solvers k)
    end.
    intros m Hm. unfold bind.
    destruct (m x) as [[[[]| |] x1] e1]; unfold state in *; cbn [fst snd] in *;
      try exact Hm.
    pose proof (lazy_ok_keeps_flag (rest tt) x1 Hrest Hm) as H.
    destruct (rest tt x1) as [[o x2] e2]. exact H.
Qed.

Lemma calls_creates cs x :
  creates (calls cs x).2 + flag x = match cs with [] => flag x | _ :: _ => 1 end
  ∧ flag (calls cs x).1 = match cs with [] => flag x | _ :: _ => 1 end.
Proof.
  revert x. induction cs as [|c cs IH]; intros x; [split; reflexivity|].
  cbn [calls].
  pose proof (lazy_ok_call c x) as Hc. pose proof (call_sets_flag c x) as Hf.
  destruct (call c x) as [[o x1] e1].
  unfold state, events in Hc, Hf. cbn [fst snd] in Hc, Hf.
  destruct (IH x1) as [IH1 IH2].
  destruct (calls cs x1) as [x2 e2]. cbn [fst snd] in *.
  rewrite creates_app. destruct cs; lia.
Qed.

(** C9. Creating the solvers is lazy and idempotent: the first call of
    [_lazy_create_solvers] creates them and raises the flag, a later call
    returns at once; every public operation raises the flag; and whatever
    calls are made on an instance, in whatever order and however they
    end, the solvers are created at most once, and exactly once on a new
    instance that received a call. *)
Theorem solvers_created_once :
  (∀ x, _subproblems_solvers_created x = false →
        _lazy_create_solvers x
          = (Ret tt, set_created true x, [Ev_create_solvers false]))
  ∧ (∀ x, _subproblems_solvers_created x = true →
          _lazy_create_solvers x = (Ret tt, x, []))
  ∧ (∀ c x, _subproblems_solvers_created (state (call c x)) = true)
  ∧ (∀ cs x, (creates (calls cs x).2 ≤ 1)%nat)
  ∧ (∀ x0 x c cs,
       __init__ x0 = (Ret tt, x, []) →
       creates (calls (c :: cs) x).2 = 1
       ∧ _subproblems_solvers_created (calls (c :: cs) x).1 = true).
Proof.
  split; [exact lazy_create_first|]. split; [exact lazy_create_again|].
  split; [|split].
  - intros c x. pose proof (call_sets_flag c x) as H. unfold flag in H.
    destruct (_subproblems_solvers_created (state (call c x))); [reflexivity|lia].
  - intros cs x. destruct (calls_creates cs x) as [H _].
    unfold flag in H. destruct cs, (_subproblems_solvers_created x); lia.
  - intros x0 x c cs Hinit.
    assert (Hx : _subproblems_solvers_created x = false).
    { unfold __init__ in Hinit. unfold bind, gets, getitem in Hinit.
      destruct (options x0 !! "verbose"); cbn in Hinit; [|discriminate].
      injection Hinit as <-. reflexivity. }
    destruct (calls_creates (c :: cs) x) as [H1 H2].
    unfold flag in H1, H2. rewrite Hx in H1.
    destruct (_subproblems_solvers_created (calls (c :: cs) x).1); [|lia].
    split; [lia|reflexivity].
Qed.

Lemma solvers_created_once_witness :
  let x := state (__init__ (example_xhat (qc 0 1))) in
  let cs := [Call_evaluate (example_cache (qc 1 1)) None;
             Call_calculate_incumbent true (PyBool false);
             Call_Eobjective (PyBool false) (Some (λ v, Float (v * v)));
             Call_solve_loop PyNone false false false false false PyNone
               false false false] in
  _subproblems_solvers_created x = false
  ∧ __init__ (example_xhat (qc 0 1)) = (Ret tt, x, [])
  ∧ creates (calls cs x).2 = 1
  ∧ _subproblems_solvers_created (calls cs x).1 = true
  ∧ _lazy_create_solvers x
      = (Ret tt, set_created true x, [Ev_create_solvers false])
  ∧ _lazy_create_solvers (set_created true x) = (Ret tt, set_created true x, []).
Proof.
  cbv zeta.
  destruct solvers_created_once as (Hfirst & Hagain & _ & _ & Hseq).
  assert (Hx : _subproblems_solvers_created
                 (state (__init__ (example_xhat (qc 0 1)))) = false) by reflexivity.
  assert (Hinit : __init__ (example_xhat (qc 0 1))
                  = (Ret tt, state (__init__ (example_xhat (qc 0 1))), []))
    by reflexivity.
  split; [exact Hx|]. split; [exact Hinit|].
  destruct (Hseq _ _ (Call_evaluate (example_cache (qc 1 1)) None)
              [Call_calculate_incumbent true (PyBool false);
               Call_Eobjective (PyBool false) (Some (λ v, Float (v * v)));
               Call_solve_loop PyNone false false false false false PyNone
                 false false false] Hinit) as [Hc Hf].
  split; [exact Hc|]. split; [exact Hf|].
  split; [apply Hfirst, Hx|apply Hagain; reflexivity].
Defined.

(** *** Running the evaluator step by step *)

Ltac xsimpl_state :=
  cbn [options verbose _subproblems_solvers_created Ag bundling models
       local_scenarios local_subproblems names_in_bundles objs_dict
       current_solver_options mpicomm
       set_verbose set_created set_Ag with_models set_objs_dict set_mpicomm].

Lemma for_each_run {A} (l : list A) (body : A → Xh unit)
    (f : A → Xhat_Eval → Xhat_Eval) (ev : A → list Event) (P : Xhat_Eval → Prop) :
  (∀ a x, a ∈ l → P x → body a x = (Ret tt, f a x, ev a) ∧ P (f a x)) →
  ∀ x, P x →
    for_each l body x = (Ret tt, foldl (λ x a, f a x) x l, concat (map ev l))
    ∧ P (foldl (λ x a, f a x) x l).
Proof.
  induction l as [|a l IH]; intros Hb x HP; cbn.
  - split; [reflexivity|exact HP].
  - destruct (Hb a x) as [Hrun HP1]; [left|exact HP|].
    destruct (IH (λ a' x' Ha', Hb a' x' (list_elem_of_further _ _ _ Ha'))
                 (f a x) HP1) as [Hrest HP2].
    split; [|exact HP2].
    eapply run_bind; [exact Hrun|exact Hrest|reflexivity].
Qed.

Lemma map_m_run {A B} (l : list A) (body : A → Xh B) (g : A → B) x :
  (∀ a, a ∈ l → body a x = (Ret (g a), x, [])) →
  map_m l body x = (Ret (map g l), x, []).
Proof.
  induction l as [|a l IH]; intros Hb; cbn; [reflexivity|].
  eapply run_bind; [apply Hb; left| |reflexivity].
  eapply run_bind; [apply IH; intros a' Ha'; apply Hb; right; exact Ha'| |reflexivity].
  reflexivity.
Qed.

Lemma concat_map_nil {A B} (l : list A) : concat (map (λ _ : A, @nil B) l) = [].
Proof. induction l; [reflexivity|assumption]. Qed.

Lemma lazy_create_run x :
  _lazy_create_solvers x = (Ret tt, with_solvers x, lazy_events x).
Proof.
  unfold with_solvers, lazy_events.
  destruct (_subproblems_solvers_created x) eqn:Hc.
  - apply lazy_create_again, Hc.
  - apply lazy_create_first, Hc.
Qed.

Lemma with_solvers_created x : _subproblems_solvers_created (with_solvers x) = true.
Proof.
  unfold with_solvers. destruct (_subproblems_solvers_created x) eqn:Hc; [exact Hc|reflexivity].
Qed.

Lemma with_models_id x : with_models (λ h, h) x = x.
Proof. destruct x; reflexivity. Qed.

Lemma foldl_with_models F l x :
  foldl (λ x k, with_models (alter F k) x) x l = with_models (alter_all F l) x.
Proof.
  unfold alter_all. revert x. induction l as [|k l IH]; intros x; cbn.
  - symmetry. apply with_models_id.
  - rewrite IH. destruct x; reflexivity.
Qed.

Lemma alter_all_lookup F l (h : gmap string Scenario) k :
  NoDup l →
  alter_all F l h !! k = if bool_decide (k ∈ l) then F <$> h !! k else h !! k.
Proof.
  unfold alter_all. intros Hnd. revert h.
  induction Hnd as [|k0 l Hk0 Hnd IH]; intros h; cbn; [reflexivity|].
  rewrite IH.
  destruct (decide (k = k0)) as [->|Hne].
  - rewrite (bool_decide_eq_false_2 (k0 ∈ l)) by exact Hk0.
    rewrite (bool_decide_eq_true_2 (k0 ∈ k0 :: l)) by left.
    rewrite lookup_alter_eq. reflexivity.
  - rewrite lookup_alter_ne by congruence.
    destruct (decide (k ∈ l)) as [Hin|Hnin].
    + rewrite !bool_decide_eq_true_2; [reflexivity|right; exact Hin|exact Hin].
    + rewrite !bool_decide_eq_false_2; [reflexivity| |exact Hnin].
      intros [->|?]%elem_of_cons; contradiction.
Qed.

Lemma fix_nonants_run cache x :
  _fix_nonants cache x =
    (Ret tt,
     with_models (alter_all (fix_scenario cache) (local_scenarios x)) x,
     [Ev_fix_nonants cache]).
Proof.
  unfold _fix_nonants.
  destruct (for_each_run (local_scenarios x)
              (λ k, modify (with_models (alter (fix_scenario cache) k)))
              (λ k, with_models (alter (fix_scenario cache) k))
              (λ _, []) (λ _, True)) with (x := x) as [Hrun _]; [|exact I|].
  { intros a x' _ _. split; [reflexivity|exact I]. }
  rewrite foldl_with_models, concat_map_nil in Hrun.
  eapply run_bind; [reflexivity| |reflexivity].
  eapply run_bind; [reflexivity| |reflexivity].
  exact Hrun.
Qed.

Lemma model_run k x s :
  models x !! k = Some s → model k x = (Ret s, x, []).
Proof. intros H. unfold model, bind, gets. cbv beta iota. rewrite H. reflexivity. Qed.

Lemma solve_one_run so k dt gr tee vb dis upd ws x s d :
  _subproblems_solvers_created x = true →
  models x !! k = Some s →
  objs_dict x = Some d →
  solve_one so k dt gr tee vb dis upd true ws x =
    (Ret tt, solve_step k x, [Ev_solve_one so k dt gr tee vb dis upd ws true]).
Proof.
  intros Hc Hs Hd. unfold solve_one, solve_step. rewrite Hs, Hd.
  eapply run_conv.
  { eapply run_bind; [apply lazy_create_again, Hc| |reflexivity].
    eapply run_bind; [reflexivity| |reflexivity].
    cbv beta. unfold when, saved_objective.
    eapply run_bind; [|cbv beta|reflexivity].
    - eapply run_bind; [apply model_run|reflexivity|reflexivity].
      xsimpl_state. rewrite lookup_alter_eq, Hs. reflexivity.
    - eapply run_bind; [reflexivity| |reflexivity].
      cbv beta. xsimpl_state. rewrite Hd. reflexivity. }
  reflexivity.
Qed.

Lemma solve_step_recording l k x : recording l x → recording l (solve_step k x).
Proof.
  intros (Hc & Hd & Hm). unfold solve_step.
  destruct (models x !! k) as [s|] eqn:Hs; [|repeat split; assumption].
  destruct (objs_dict x) as [d|] eqn:Hdx; [|repeat split; try assumption; rewrite Hdx; exact Hd].
  repeat split; xsimpl_state; [exact Hc|eauto|].
  intros k' Hk'. destruct (decide (k' = k)) as [->|Hne].
  - rewrite lookup_alter_eq, Hs. eauto.
  - rewrite lookup_alter_ne by congruence. apply Hm, Hk'.
Qed.

Lemma solve_loop_body_run so dt gr dis tee vb ws l x :
  recording l x →
  for_each l (λ k, solve_one so k dt gr tee vb dis true true ws) x =
    (Ret tt, solve_all l x,
     map (λ k, Ev_solve_one so k dt gr tee vb dis true ws true) l)
  ∧ recording l (solve_all l x).
Proof.
  intros Hrec.
  destruct (for_each_run l (λ k, solve_one so k dt gr tee vb dis true true ws)
              solve_step
              (λ k, [Ev_solve_one so k dt gr tee vb dis true ws true])
              (recording l)) with (x := x) as [Hrun HP]; [|exact Hrec|].
  { intros k x' Hk (Hc & [d Hd] & Hm). destruct (Hm k Hk) as [s Hs].
    split; [eapply solve_one_run; eassumption|].
    apply solve_step_recording. repeat split; eauto. }
  split; [|exact HP]. rewrite Hrun. f_equal.
  induction l as [|k l IH]; [reflexivity|]. cbn. f_equal.
  clear -l. induction l; [reflexivity|cbn; f_equal; assumption].
Qed.

(** What the instance holds after the pass. *)
Lemma solve_all_fields l x :
  options (solve_all l x) = options x
  ∧ verbose (solve_all l x) = verbose x
  ∧ local_scenarios (solve_all l x) = local_scenarios x
  ∧ mpicomm (solve_all l x) = mpicomm x.
Proof.
  unfold solve_all. revert x. induction l as [|k l IH]; intros x; cbn; [done|].
  destruct (IH (solve_step k x)) as (-> & -> & -> & ->).
  unfold solve_step.
  destruct (models x !! k), (objs_dict x); done.
Qed.

Lemma solve_all_lookup l x k d :
  NoDup l →
  objs_dict x = Some d →
  (∀ k', k' ∈ l → is_Some (models x !! k')) →
  ∃ d', objs_dict (solve_all l x) = Some d'
    ∧ models (solve_all l x) !! k
      = (if bool_decide (k ∈ l) then solved <$> models x !! k else models x !! k)
    ∧ d' !! k
      = (if bool_decide (k ∈ l) then objective ∘ solved <$> models x !! k
         else d !! k).
Proof.
  unfold solve_all. intros Hnd. revert x d.
  induction Hnd as [|k0 l Hk0 Hnd IH]; intros x d Hd Hm; cbn.
  - exists d. done.
  - destruct (Hm k0) as [s0 Hs0]; [left|].
    assert (Hstep : solve_step k0 x
              = set_objs_dict (Some (<[k0 := objective (solved s0)]> d))
                  (with_models (alter solved k0) x)).
    { unfold solve_step. rewrite Hs0, Hd. reflexivity. }
    rewrite Hstep.
    destruct (IH (set_objs_dict (Some (<[k0 := objective (solved s0)]> d))
                    (with_models (alter solved k0) x))
                 (<[k0 := objective (solved s0)]> d)) as (d' & Hd' & Hmk & Hdk).
    { reflexivity. }
    { intros k' Hk'. xsimpl_state.
      destruct (decide (k' = k0)) as [->|Hne].
      - rewrite lookup_alter_eq, Hs0. eauto.
      - rewrite lookup_alter_ne by congruence. apply Hm. right. exact Hk'. }
    exists d'. split; [exact Hd'|]. rewrite Hmk, Hdk. xsimpl_state.
    destruct (decide (k = k0)) as [->|Hne].
    + rewrite (bool_decide_eq_false_2 (k0 ∈ l)) by exact Hk0.
      rewrite (bool_decide_eq_true_2 (k0 ∈ k0 :: l)) by left.
      rewrite lookup_alter_eq, lookup_insert_eq, Hs0. done.
    + rewrite lookup_alter_ne, lookup_insert_ne by congruence.
      destruct (decide (k ∈ l)) as [Hin|Hnin].
      * rewrite !bool_decide_eq_true_2; [done|right; exact Hin|exact Hin].
      * rewrite !bool_decide_eq_false_2; [done| |exact Hnin].
        intros [->|?]%elem_of_cons; contradiction.
Qed.

Lemma solve_loop_recording_run so gr dis tee vb ws ns x :
  _subproblems_solvers_created x = true →
  (∀ k, k ∈ local_scenarios x → is_Some (models x !! k)) →
  solve_loop so true false gr dis tee vb true ws ns x =
    (Ret tt, solve_all (local_scenarios x) (set_objs_dict (Some ∅) x),
     map (λ k, Ev_solve_one so k false gr tee vb dis true ws true)
       (local_scenarios x)).
Proof.
  intros Hc Hm. unfold solve_loop.
  destruct (solve_loop_body_run so false gr dis tee vb ws (local_scenarios x)
              (set_objs_dict (Some ∅) x)) as [Hrun _].
  { repeat split; [exact Hc|eexists; reflexivity|exact Hm]. }
  eapply run_conv.
  { eapply run_bind; [apply lazy_create_again, Hc| |reflexivity].
    eapply run_bind; [reflexivity| |reflexivity]. cbv beta.
    eapply run_bind; [reflexivity| |reflexivity].
    eapply run_bind; [exact Hrun| |reflexivity].
    reflexivity. }
  cbn [app]. rewrite app_nil_r. reflexivity.
Qed.

Lemma Allreduce_SUM_run c x :
  Allreduce_SUM c x =
    (Ret (c + default (Q2Qc 0) (head (mpicomm x)))%Qc,
     set_mpicomm (tail (mpicomm x)) x, [Ev_Allreduce c]).
Proof. reflexivity. Qed.

Lemma base_Eobjective_run vb x :
  (∀ k, k ∈ local_scenarios x → is_Some (models x !! k)) →
  base_Eobjective vb x =
    (Ret (expect id x + default (Q2Qc 0) (head (mpicomm x)))%Qc,
     set_mpicomm (tail (mpicomm x)) x,
     [Ev_Allreduce (expect id x)]).
Proof.
  intros Hm. unfold base_Eobjective, expect.
  eapply run_conv.
  { eapply run_bind; [reflexivity| |reflexivity]. cbv beta.
    eapply run_bind; [|apply Allreduce_SUM_run|reflexivity].
    apply map_m_run with
      (g := λ k, match models x !! k with
                 | Some s => (_mpisppy_probability s * objective s)%Qc
                 | None => Q2Qc 0
                 end).
    intros k Hk. destruct (Hm k Hk) as (s & Hs).
    eapply run_conv.
    { eapply run_bind; [apply model_run, Hs| |reflexivity]. reflexivity. }
    rewrite Hs. reflexivity. }
  reflexivity.
Qed.

(** A list of numbers is an array of one dimension. *)
Lemma np_array_floats qs : np_array (map Float qs) = inr (Array1 qs).
Proof.
  unfold np_array.
  assert (H : mapM as_float (map Float qs) = Some qs).
  { induction qs as [|q qs IH]; [reflexivity|]. cbn. rewrite IH. reflexivity. }
  rewrite H. reflexivity.
Qed.

(** The reduction of one number into a buffer of one element. *)
Lemma Allreduce_one_run c x :
  Allreduce [c] (np_zeros 1) x =
    (Ret [(c + default (Q2Qc 0) (head (mpicomm x)))%Qc],
     set_mpicomm (tail (mpicomm x)) x, [Ev_Allreduce c]).
Proof. reflexivity. Qed.

Lemma Eobjective_run vb fct x d :
  _subproblems_solvers_created x = true →
  objs_dict x = Some d →
  (∀ k, k ∈ local_scenarios x →
        ∃ s, models x !! k = Some s ∧ d !! k = Some (objective s)) →
  Eobjective vb (scalar_fct fct) x =
    (Ret (Float (expect (fct_or_id fct) x + default (Q2Qc 0) (head (mpicomm x)))%Qc),
     set_mpicomm (tail (mpicomm x)) x,
     [Ev_Allreduce (expect (fct_or_id fct) x)]).
Proof.
  intros Hc Hd Hm. unfold Eobjective.
  destruct fct as [f|]; cbn [scalar_fct fmap option_fmap option_map fct_or_id default].
  - unfold expect.
    eapply run_conv.
    { eapply run_bind; [apply lazy_create_again, Hc| |reflexivity].
      cbv beta iota.
      eapply run_bind; [reflexivity| |reflexivity]. cbv beta. rewrite Hd.
      eapply run_bind; [reflexivity| |reflexivity]. cbv beta.
      eapply run_bind; [| |reflexivity].
      - apply map_m_run with
          (g := λ k, Float (match models x !! k with
                            | Some s => (_mpisppy_probability s * f (objective s))%Qc
                            | None => Q2Qc 0
                            end)).
        intros k Hk. destruct (Hm k Hk) as (s & Hs & Hdk).
        eapply run_conv.
        { eapply run_bind; [apply model_run, Hs| |reflexivity].
          cbv beta. rewrite Hdk. reflexivity. }
        rewrite Hs. reflexivity.
      - cbv beta.
        rewrite <- (map_map _ Float), np_array_floats.
        eapply run_bind; [reflexivity| |reflexivity].
        eapply run_bind; [reflexivity| |reflexivity].
        cbv beta zeta.
        eapply run_bind; [apply Allreduce_one_run| |reflexivity].
        reflexivity. }
    reflexivity.
  - eapply run_conv.
    { eapply run_bind; [apply lazy_create_again, Hc| |reflexivity].
      cbv beta iota.
      eapply run_bind; [apply base_Eobjective_run| |reflexivity].
      - intros k Hk. destruct (Hm k Hk) as (s & Hs & _). eauto.
      - reflexivity. }
    reflexivity.
Qed.

(** Whatever [fct] returns, [Eobjective] returns a number when it
    returns: the receive buffer of the reduction has one element. *)
Lemma Eobjective_returns_a_number vb fct x r :
  outcome (Eobjective vb fct x) = Ret r → ∃ q, r = Float q.
Proof.
  assert (H : hoare (λ _ : Xhat_Eval, True) (λ _, True) (Eobjective vb fct)
                (λ r _, ∃ q, r = Float q)).
  { unfold Eobjective.
    apply (hoare_bind _ _ _ _ (λ _ _, True)).
    { intros s _. split; [apply Forall_true; auto|auto]. }
    intros _. destruct fct as [f|].
    - apply (hoare_bind _ _ _ _ (λ _ _, True)).
      { intros s _. split; [apply Forall_true; auto|auto]. }
      intros [d|]; [|apply hoare_raise].
      apply (hoare_bind _ _ _ _ (λ _ _, True)).
      { intros s _. split; [apply Forall_true; auto|auto]. }
      intros names.
      apply (hoare_bind _ _ _ _ (λ _ _, True)).
      { intros s _. split; [apply Forall_true; auto|auto]. }
      intros l.
      apply (hoare_bind _ _ _ _ (λ _ _, True)).
      { intros s _. split; [apply Forall_true; auto|auto]. }
      intros a.
      apply (hoare_bind _ _ _ _ (λ b _, True ∧ np_len b = 1%nat)).
      { unfold np_array. cbn [mapM].
        destruct (np_sum_axis0 a) as [q|v]; cbn; apply hoare_ret; auto. }
      intros b. cbv zeta.
      apply (hoare_pure (λ _, True) (np_len b = 1%nat)). intros Hb.
      apply (hoare_bind _ _ _ _ (λ g _, True ∧ length g = 1%nat)).
      { unfold Allreduce. rewrite Hb. case_bool_decide as Hlen; [|apply hoare_raise].
        intros s _. split; [apply Forall_true; auto|].
        intros g Hg. split; [exact I|]. cbn in Hlen.
        destruct (np_flat b) as [|c [|c' rest]]; try discriminate Hlen.
        cbn in Hg. injection Hg as <-. reflexivity. }
      intros g. apply (hoare_pure (λ _, True) (length g = 1%nat)). intros Hg.
      rewrite bool_decide_eq_true_2 by exact Hg.
      apply hoare_ret. intros s _. eauto.
    - apply (hoare_bind _ _ _ _ (λ _ _, True)).
      { intros s _. split; [apply Forall_true; auto|auto]. }
      intros e. apply hoare_ret. intros s _. eauto. }
  intros Hr. destruct (H x I) as [_ Hret]. exact (Hret r Hr).
Qed.

(** *** The expected objective at a candidate solution *)

(** A full assignment fixes every variable of the node at its value. *)
Lemma fix_at_full vals vs :
  length vals = length vs →
  map _value (fix_at vals vs) = vals
  ∧ Forall (λ v, fixed v = true) (fix_at vals vs).
Proof.
  revert vals. induction vs as [|v vs IH]; intros [|q vals] Hlen; cbn in *;
    try discriminate.
  - split; [reflexivity|constructor].
  - destruct (IH vals) as [Hv Hf]; [congruence|].
    split; [f_equal; exact Hv|constructor; [reflexivity|exact Hf]].
Qed.

Lemma evaluated_nodes cache s :
  _mpisppy_node_list (evaluated cache s)
    = map (fix_node cache) (_mpisppy_node_list s)
  ∧ _mpisppy_probability (evaluated cache s) = _mpisppy_probability s.
Proof.
  unfold evaluated, solved, fix_scenario.
  destruct (solver _ _); split; reflexivity.
Qed.

(** Under a full assignment every variable of an evaluated scenario has
    the value the cache gives it, and is fixed. *)
Lemma evaluated_fixed_at cache s :
  (∀ n, n ∈ _mpisppy_node_list s →
        ∃ vals, cache !! name n = Some (Some vals)
                ∧ length vals = length (nonant_vardata_list n)) →
  fixed_at cache (evaluated cache s).
Proof.
  intros Hfull. unfold fixed_at.
  destruct (evaluated_nodes cache s) as [-> _].
  apply Forall_map, Forall_forall. intros n Hn.
  destruct (Hfull n Hn) as (vals & Hc & Hlen).
  unfold fix_node. rewrite Hc. cbn.
  destruct (fix_at_full vals (nonant_vardata_list n) Hlen) as [Hv Hf].
  exists vals. repeat split; assumption.
Qed.

(** What a solve leaves on the model: the optimum at the nonants as
    they are, or the mark of infeasibility. *)
Lemma evaluated_solution cache s :
  match solver s (_mpisppy_node_list (evaluated cache s)) with
  | Some v => objective (evaluated cache s) = v ∧ feasible (evaluated cache s) = true
  | None => feasible (evaluated cache s) = false
  end.
Proof.
  destruct (evaluated_nodes cache s) as [-> _].
  unfold evaluated, solved, fix_scenario. cbn.
  destruct (solver s (map (fix_node cache) (_mpisppy_node_list s)));
    cbn; auto.
Qed.

Lemma with_solvers_fields x :
  options (with_solvers x) = options x
  ∧ verbose (with_solvers x) = verbose x
  ∧ models (with_solvers x) = models x
  ∧ local_scenarios (with_solvers x) = local_scenarios x
  ∧ mpicomm (with_solvers x) = mpicomm x.
Proof.
  unfold with_solvers. destruct (_subproblems_solvers_created x); done.
Qed.

(** For [fct] absent or with numbers for values, and a cache that is a
    full assignment: [evaluate] fixes every nonant of every local
    scenario at the value the cache gives it, solves every local
    scenario, and returns the expectation of the objective values, or of
    [fct] of them, summed over the ranks. *)
Theorem evaluate_scalar_expected_objective cache fct x :
  NoDup (local_scenarios x) →
  (∀ k, k ∈ local_scenarios x → is_Some (models x !! k)) →
  full_assignment cache x →
  let g := fct_or_id fct in
  let so := default PyNone (options x !! "solver_options") in
  ∃ x',
    evaluate cache (scalar_fct fct) x =
      (Ret (Float (local_expectation cache g x
                   + default (Q2Qc 0) (head (mpicomm x)))%Qc),
       x',
       lazy_events x
       ++ [Ev_fix_nonants cache]
       ++ map (λ k, Ev_solve_one so k false true false (verbose x)
                      false true false true) (local_scenarios x)
       ++ [Ev_Allreduce (local_expectation cache g x)])
    ∧ (∀ k s, k ∈ local_scenarios x → models x !! k = Some s →
         ∃ s', models x' !! k = Some s'
           ∧ s' = evaluated cache s
           ∧ fixed_at cache s'
           ∧ match solver s (_mpisppy_node_list s') with
             | Some v => objective s' = v ∧ feasible s' = true
             | None => feasible s' = false
             end)
    ∧ (∀ others : list Xhat_Eval,
         default (Q2Qc 0) (head (mpicomm x))
           = sum_Qc (map (local_expectation cache g) others) →
         outcome (evaluate cache (scalar_fct fct) x)
           = Ret (Float (sum_Qc (map (local_expectation cache g) (x :: others))))).
Proof.
  intros Hnd Hm Hfull. cbv zeta.
  destruct (with_solvers_fields x) as (Ho & Hv & Hmod & Hls & Hcomm).
  set (x0 := with_solvers x) in *.
  set (x1 := with_models (alter_all (fix_scenario cache) (local_scenarios x0)) x0).
  set (x2 := solve_all (local_scenarios x1) (set_objs_dict (Some ∅) x1)).
  assert (Hc1 : _subproblems_solvers_created x1 = true)
    by apply with_solvers_created.
  assert (Hls1 : local_scenarios x1 = local_scenarios x) by exact Hls.
  assert (Hm1 : ∀ k s, k ∈ local_scenarios x → models x !! k = Some s →
                  models x1 !! k = Some (fix_scenario cache s)).
  { intros k s Hk Hs. subst x1. xsimpl_state.
    rewrite alter_all_lookup by (rewrite Hls; exact Hnd).
    rewrite bool_decide_eq_true_2 by (rewrite Hls; exact Hk).
    rewrite Hmod, Hs. reflexivity. }
  assert (Hm1' : ∀ k, k ∈ local_scenarios x1 →
                   is_Some (models (set_objs_dict (Some ∅) x1) !! k)).
  { intros k Hk. rewrite Hls1 in Hk. destruct (Hm k Hk) as [s Hs].
    change (models (set_objs_dict (Some ∅) x1)) with (models x1).
    rewrite (Hm1 k s Hk Hs). eauto. }
  assert (Hls2 : local_scenarios x2 = local_scenarios x).
  { etransitivity; [apply solve_all_fields|exact Hls1]. }
  assert (Hcomm2 : mpicomm x2 = mpicomm x).
  { etransitivity; [apply solve_all_fields|exact Hcomm]. }
  assert (Hx2 : ∃ d', objs_dict x2 = Some d' ∧
            ∀ k s, k ∈ local_scenarios x → models x !! k = Some s →
              models x2 !! k = Some (evaluated cache s)
              ∧ d' !! k = Some (objective (evaluated cache s))).
  { destruct (solve_all_lookup (local_scenarios x1) (set_objs_dict (Some ∅) x1)
                "" ∅) as (d' & Hd' & _).
    { rewrite Hls1. exact Hnd. }
    { reflexivity. }
    { exact Hm1'. }
    exists d'. split; [exact Hd'|].
    intros k s Hk Hs.
    destruct (solve_all_lookup (local_scenarios x1) (set_objs_dict (Some ∅) x1)
                k ∅) as (d'' & Hd'' & Hmk & Hdk).
    { rewrite Hls1. exact Hnd. }
    { reflexivity. }
    { exact Hm1'. }
    pose proof (eq_trans (eq_sym Hd') Hd'') as Heq. injection Heq as <-.
    rewrite bool_decide_eq_true_2 in Hmk, Hdk by (rewrite Hls1; exact Hk).
    change (models (set_objs_dict (Some ∅) x1)) with (models x1) in Hmk, Hdk.
    rewrite (Hm1 k s Hk Hs) in Hmk, Hdk.
    split; [exact Hmk|exact Hdk]. }
  destruct Hx2 as (d' & Hd' & Hx2).
  assert (Hc2 : _subproblems_solvers_created x2 = true).
  { destruct (solve_loop_body_run PyNone false false false false PyNone false
                (local_scenarios x1) (set_objs_dict (Some ∅) x1)) as [_ (Hc & _)];
      [|exact Hc].
    repeat split; [exact Hc1|eexists; reflexivity|exact Hm1']. }
  assert (Hexp : expect (fct_or_id fct) x2 = local_expectation cache (fct_or_id fct) x).
  { unfold expect, local_expectation. rewrite Hls2. f_equal.
    apply map_ext_in. intros k Hk%list_elem_of_In.
    destruct (Hm k Hk) as [s Hs]. destruct (Hx2 k s Hk Hs) as [Hs2 _].
    rewrite Hs2, Hs. destruct (evaluated_nodes cache s) as [_ ->]. reflexivity. }
  assert (Hrun : evaluate cache (scalar_fct fct) x =
    (Ret (Float (local_expectation cache (fct_or_id fct) x
                 + default (Q2Qc 0) (head (mpicomm x)))%Qc),
     set_mpicomm (tail (mpicomm x2)) x2,
     lazy_events x
     ++ [Ev_fix_nonants cache]
     ++ map (λ k, Ev_solve_one (default PyNone (options x !! "solver_options")) k
                    false true false (verbose x) false true false true)
          (local_scenarios x)
     ++ [Ev_Allreduce (local_expectation cache (fct_or_id fct) x)])).
  { unfold evaluate.
    eapply run_conv.
    { eapply run_bind; [apply lazy_create_run| |reflexivity].
      eapply run_bind; [apply fix_nonants_run| |reflexivity].
      eapply run_bind; [reflexivity| |reflexivity]. cbv beta.
      eapply run_bind; [reflexivity| |reflexivity]. cbv beta.
      eapply run_bind; [apply solve_loop_recording_run| |reflexivity].
      - exact Hc1.
      - intros k Hk. fold x0 x1 in Hk |- *. rewrite Hls1 in Hk.
        destruct (Hm k Hk) as [s Hs]. rewrite (Hm1 k s Hk Hs). eauto.
      - eapply run_bind; [reflexivity| |reflexivity]. cbv beta.
        apply Eobjective_run with (d := d').
        + exact Hc2.
        + exact Hd'.
        + intros k Hk. fold x0 x1 x2 in Hk |- *. rewrite Hls2 in Hk.
          destruct (Hm k Hk) as [s Hs]. destruct (Hx2 k s Hk Hs) as [Hs2 Hdk].
          exists (evaluated cache s). split; assumption. }
    fold x0 x1 x2. rewrite Hexp, Hcomm2.
    assert (Ho1 : options x1 = options x) by exact Ho.
    assert (Hv1 : verbose x1 = verbose x) by exact Hv.
    rewrite Ho1, Hv1, Hls1. reflexivity. }
  exists (set_mpicomm (tail (mpicomm x2)) x2).
  split; [exact Hrun|]. split.
  - intros k s Hk Hs. destruct (Hx2 k s Hk Hs) as [Hs2 _].
    exists (evaluated cache s). split; [exact Hs2|]. split; [reflexivity|].
    split; [|apply evaluated_solution].
    apply evaluated_fixed_at. intros n Hn. exact (Hfull k s n Hk Hs Hn).
  - intros others Hothers. rewrite Hrun. unfold outcome. cbn [fst map].
    rewrite Hothers. reflexivity.
Qed.

Ltac names_in_models :=
  let k := fresh "k" in
  let Hk := fresh "Hk" in
  intros k Hk;
  repeat (apply elem_of_cons in Hk as [->|Hk]; [eexists; reflexivity|]);
  apply elem_of_nil in Hk; destruct Hk.

(** The candidate [x = 1] in the two-scenario example:
    0.6 * 10 + 0.4 * 20 = 14, and 0.6 * 10^2 + 0.4 * 20^2 = 220 for the
    squares. *)
Lemma evaluate_scalar_expected_objective_witness :
  let x := example_xhat (qc 0 1) in
  let cache := example_cache (qc 1 1) in
  NoDup (local_scenarios x)
  ∧ (∀ k, k ∈ local_scenarios x → is_Some (models x !! k))
  ∧ full_assignment cache x
  ∧ outcome (evaluate cache (scalar_fct None) x) = Ret (Float (qc 14 1))
  ∧ outcome (evaluate cache (scalar_fct (Some (λ v, v * v)%Qc)) x)
    = Ret (Float (qc 220 1)).
Proof.
  cbv zeta.
  assert (Hnd : NoDup (local_scenarios (example_xhat (qc 0 1)))).
  { refine (bool_decide_unpack _ _). vm_compute. exact I. }
  assert (Hm : ∀ k, k ∈ local_scenarios (example_xhat (qc 0 1)) →
                    is_Some (models (example_xhat (qc 0 1)) !! k))
    by names_in_models.
  assert (Hfull : full_assignment (example_cache (qc 1 1)) (example_xhat (qc 0 1))).
  { intros k s n Hk Hs Hn.
    repeat (apply elem_of_cons in Hk as [->|Hk];
            [injection Hs as <-;
             apply list_elem_of_singleton in Hn as ->;
             exists [qc 1 1]; split; reflexivity|]).
    apply elem_of_nil in Hk. destruct Hk. }
  split; [exact Hnd|]. split; [exact Hm|]. split; [exact Hfull|]. split.
  - destruct (evaluate_scalar_expected_objective (example_cache (qc 1 1)) None
                (example_xhat (qc 0 1)) Hnd Hm Hfull) as (x' & Hrun & _).
    rewrite Hrun. unfold outcome. cbn [fst].
    apply (f_equal (λ q, Ret (Float q))). apply Qc_is_canon. vm_compute. reflexivity.
  - destruct (evaluate_scalar_expected_objective (example_cache (qc 1 1))
                (Some (λ v, v * v)%Qc)
                (example_xhat (qc 0 1)) Hnd Hm Hfull) as (x' & Hrun & _).
    rewrite Hrun. unfold outcome. cbn [fst].
    apply (f_equal (λ q, Ret (Float q))). apply Qc_is_canon. vm_compute. reflexivity.
Defined.

(** C8, at the failing input.  [fct] is documented as a function
    R --> R^p, with an array of length p for result when p > 1.  Here
    p = 2: [fct] maps an objective value to the array of the value and
    its square, the candidate is [x = 1] in the two-scenario example, and
    the expectation would be the array (14, 220).  [evaluate] fixes and
    solves as it should, but [Eobjective] wraps the sum of the rows in a
    one-row array and sizes the receive buffer by its length, which is 1
    whatever p is: the reduction is handed two numbers for one slot, and
    no array comes back. *)
Theorem evaluate_vector_fct_fails :
  outcome (evaluate (example_cache (qc 1 1)) (Some squares) (example_xhat (qc 0 1)))
    = Raise (ValueError "mismatch in send count and receive count")
  ∧ events (evaluate (example_cache (qc 1 1)) (Some squares) (example_xhat (qc 0 1)))
    = [Ev_fix_nonants (example_cache (qc 1 1));
       Ev_solve_one PyNone "scen0" false true false PyNone false true false true;
       Ev_solve_one PyNone "scen1" false true false PyNone false true false true].
Proof. vm_compute. split; reflexivity. Qed.

(** *** The incumbent *)

Lemma infeas_prob_run x :
  (∀ k, k ∈ local_scenarios x → is_Some (models x !! k)) →
  infeas_prob x =
    (Ret (infeasible_probability x + default (Q2Qc 0) (head (mpicomm x)))%Qc,
     set_mpicomm (tail (mpicomm x)) x,
     [Ev_Allreduce (infeasible_probability x)]).
Proof.
  intros Hm. unfold infeas_prob, infeasible_probability.
  eapply run_conv.
  { eapply run_bind; [reflexivity| |reflexivity]. cbv beta.
    eapply run_bind; [|apply Allreduce_SUM_run|reflexivity].
    apply map_m_run with
      (g := λ k, match models x !! k with
                 | Some s => if feasible s then Q2Qc 0 else _mpisppy_probability s
                 | None => Q2Qc 0
                 end).
    intros k Hk. destruct (Hm k Hk) as [s Hs].
    eapply run_conv.
    { eapply run_bind; [apply model_run, Hs| |reflexivity]. reflexivity. }
    rewrite Hs. reflexivity. }
  reflexivity.
Qed.

Lemma incumbent_is_absent_iff_infeasible_general fix_nonants verbose x x1 e1 p x2 e2 :
  solve_for_incumbent fix_nonants verbose x = (Ret tt, x1, e1) →
  infeas_prob x1 = (Ret p, x2, e2) →
  (p ≠ Q2Qc 0 →
   calculate_incumbent fix_nonants verbose x = (Ret None, x2, e1 ++ e2))
  ∧ (p = Q2Qc 0 →
     ∀ e x3 e3,
       Eobjective verbose None x2 = (Ret e, x3, e3) →
       calculate_incumbent fix_nonants verbose x
         = (Ret (Some e), x3, e1 ++ e2 ++ e3))
  ∧ (∀ r, outcome (calculate_incumbent fix_nonants verbose x) = Ret r →
          (r = None ↔ p ≠ Q2Qc 0)).
Proof.
  intros Hsolve Hinf.
  assert (Hne : p ≠ Q2Qc 0 →
            calculate_incumbent fix_nonants verbose x = (Ret None, x2, e1 ++ e2)).
  { intros Hp. unfold calculate_incumbent.
    eapply run_bind; [exact Hsolve| |reflexivity].
    eapply run_conv.
    { eapply run_bind; [exact Hinf| |reflexivity]. cbv beta.
      rewrite bool_decide_eq_true_2 by exact Hp. reflexivity. }
    rewrite app_nil_r. reflexivity. }
  assert (Heq : p = Q2Qc 0 →
            calculate_incumbent fix_nonants verbose x =
              (match outcome (Eobjective verbose None x2) with
               | Ret e => Ret (Some e)
               | Raise ex => Raise ex
               | OutOfFuel => OutOfFuel
               end,
               state (Eobjective verbose None x2),
               e1 ++ e2 ++ events (Eobjective verbose None x2))).
  { intros Hp. unfold calculate_incumbent.
    eapply run_bind; [exact Hsolve| |reflexivity].
    eapply run_bind; [exact Hinf| |reflexivity]. cbv beta.
    rewrite bool_decide_eq_false_2 by (intros H; exact (H Hp)).
    destruct (Eobjective verbose None x2) as [[o x3] e3] eqn:HE.
    rewrite (bind_eq _ _ _ _ _ _ HE).
    destruct o; unfold outcome, state, events; cbn [fst snd];
      rewrite ?app_nil_r; reflexivity. }
  split; [exact Hne|]. split.
  - intros Hp e x3 e3 HE. rewrite (Heq Hp), HE. reflexivity.
  - intros r Hr. destruct (decide (p = Q2Qc 0)) as [Hp|Hp].
    + rewrite (Heq Hp) in Hr. unfold outcome at 1 in Hr. cbn [fst] in Hr.
      destruct (outcome (Eobjective verbose None x2)); try discriminate.
      injection Hr as <-. split; [discriminate|]. intros H. destruct (H Hp).
    + rewrite (Hne Hp) in Hr. injection Hr as <-. split; [intros _; exact Hp|reflexivity].
Qed.

(** C10. Once the subproblems are solved, [calculate_incumbent] returns
    [None] exactly when [infeas_prob()] is not zero, and it returns it:
    infeasibility is no exception.  Otherwise it returns what
    [Eobjective()] returns. *)
Theorem incumbent_is_absent_iff_infeasible fix_nonants verbose x x1 e1 p x2 e2 :
  solve_for_incumbent fix_nonants verbose x = (Ret tt, x1, e1) →
  infeas_prob x1 = (Ret p, x2, e2) →
  (p ≠ Q2Qc 0 →
   calculate_incumbent fix_nonants verbose x = (Ret None, x2, e1 ++ e2))
  ∧ (p = Q2Qc 0 →
     ∀ e x3 e3,
       Eobjective verbose None x2 = (Ret e, x3, e3) →
       calculate_incumbent fix_nonants verbose x
         = (Ret (Some e), x3, e1 ++ e2 ++ e3))
  ∧ (∀ r, outcome (calculate_incumbent fix_nonants verbose x) = Ret r →
          (r = None ↔ p ≠ Q2Qc 0)).
Proof. apply incumbent_is_absent_iff_infeasible_general. Qed.

Lemma run_eta_ret {St Ev A} (r : Outcome A * St * list Ev) a :
  outcome r = Ret a → r = (Ret a, state r, events r).
Proof. destruct r as [[o s] e]. cbn. intros ->. reflexivity. Qed.

(** At [x = 7] the second scenario is infeasible and there is no
    incumbent; at [x = 1] both are feasible and the incumbent is the
    expected objective, 0.6 * 10 + 0.4 * 20 = 14. *)
Lemma incumbent_is_absent_iff_infeasible_witness :
  outcome (calculate_incumbent true (PyBool false) (example_xhat (qc 7 1)))
    = Ret None
  ∧ outcome (calculate_incumbent true (PyBool false) (example_xhat (qc 1 1)))
    = Ret (Some (Float (qc 14 1))).
Proof.
  split.
  - set (x := example_xhat (qc 7 1)).
    set (r1 := solve_for_incumbent true (PyBool false) x).
    assert (H1 : r1 = (Ret tt, state r1, events r1)).
    { apply run_eta_ret. vm_compute. reflexivity. }
    set (r2 := infeas_prob (state r1)).
    assert (H2 : r2 = (Ret (qc 4 10), state r2, events r2)).
    { apply run_eta_ret. apply (f_equal Ret), Qc_is_canon. vm_compute. reflexivity. }
    destruct (incumbent_is_absent_iff_infeasible true (PyBool false) x _ _ _ _ _ H1 H2)
      as (Hne & _ & _).
    rewrite Hne; [reflexivity|].
    intros Hp. apply (f_equal this) in Hp. vm_compute in Hp. discriminate Hp.
  - set (x := example_xhat (qc 1 1)).
    set (r1 := solve_for_incumbent true (PyBool false) x).
    assert (H1 : r1 = (Ret tt, state r1, events r1)).
    { apply run_eta_ret. vm_compute. reflexivity. }
    set (r2 := infeas_prob (state r1)).
    assert (H2 : r2 = (Ret (Q2Qc 0), state r2, events r2)).
    { apply run_eta_ret. apply (f_equal Ret), Qc_is_canon. vm_compute. reflexivity. }
    set (r3 := Eobjective (PyBool false) None (state r2)).
    assert (H3 : r3 = (Ret (Float (qc 14 1)), state r3, events r3)).
    { apply run_eta_ret. apply (f_equal (λ q, Ret (Float q))), Qc_is_canon.
      vm_compute. reflexivity. }
    destruct (incumbent_is_absent_iff_infeasible true (PyBool false) x _ _ _ _ _ H1 H2)
      as (_ & Heq & _).
    rewrite (Heq eq_refl _ _ _ H3). reflexivity.
Defined.

(** Without the fixing step the solves always come back, and so does
    [calculate_incumbent]. *)
Lemma solve_one_plain_run so k dt gr tee vb dis upd ws x :
  _subproblems_solvers_created x = true →
  solve_one so k dt gr tee vb dis upd false ws x =
    (Ret tt, with_models (alter solved k) x,
     [Ev_solve_one so k dt gr tee vb dis upd ws false]).
Proof.
  intros Hc. unfold solve_one.
  eapply run_conv.
  { eapply run_bind; [apply lazy_create_again, Hc| |reflexivity].
    eapply run_bind; [reflexivity| |reflexivity]. reflexivity. }
  reflexivity.
Qed.

Lemma alter_all_is_Some F l (h : gmap string Scenario) k :
  is_Some (h !! k) → is_Some (alter_all F l h !! k).
Proof.
  unfold alter_all. revert h. induction l as [|k0 l IH]; intros h Hk; cbn; [exact Hk|].
  apply IH. destruct (decide (k = k0)) as [->|Hne].
  - rewrite lookup_alter_eq. destruct Hk as [s ->]. eauto.
  - rewrite lookup_alter_ne by congruence. exact Hk.
Qed.

Lemma solve_for_incumbent_returns verbose x :
  ∃ evs,
    solve_for_incumbent false verbose x =
      (Ret tt, with_models (alter_all solved (local_subproblems x)) (with_solvers x), evs).
Proof.
  unfold solve_for_incumbent, solve_loop.
  destruct (with_solvers_fields x) as (_ & _ & _ & _ & _).
  pose proof (with_solvers_created x) as Hc.
  destruct (for_each_run (local_subproblems (with_solvers x))
              (λ k, solve_one (current_solver_options (with_solvers x)) k
                      false false false verbose false true false false)
              (λ k, with_models (alter solved k))
              (λ k, [Ev_solve_one (current_solver_options (with_solvers x)) k
                       false false false verbose false true false false])
              (λ x', _subproblems_solvers_created x' = true))
    with (x := with_solvers x) as [Hrun _]; [|exact Hc|].
  { intros k x' _ Hc'. split; [apply solve_one_plain_run, Hc'|exact Hc']. }
  rewrite foldl_with_models in Hrun.
  assert (Hsub : local_subproblems (with_solvers x) = local_subproblems x).
  { unfold with_solvers. destruct (_subproblems_solvers_created x); reflexivity. }
  rewrite Hsub in Hrun.
  eexists. eapply run_conv.
  { eapply run_bind; [apply lazy_create_run| |reflexivity].
    eapply run_bind; [reflexivity| |reflexivity].
    eapply run_bind; [reflexivity| |reflexivity]. cbv beta.
    eapply run_bind; [apply lazy_create_again, Hc| |reflexivity].
    eapply run_bind; [reflexivity| |reflexivity]. cbv beta.
    rewrite Hsub.
    eapply run_bind; [reflexivity| |reflexivity].
    eapply run_bind; [exact Hrun| |reflexivity].
    reflexivity. }
  reflexivity.
Qed.

Lemma calculate_incumbent_returns verbose x :
  (∀ k, k ∈ local_scenarios x → is_Some (models x !! k)) →
  let x1 := with_models (alter_all solved (local_subproblems x)) (with_solvers x) in
  let p := (infeasible_probability x1 + default (Q2Qc 0) (head (mpicomm x)))%Qc in
  ∃ r, outcome (calculate_incumbent false verbose x) = Ret r
       ∧ (r = None ↔ p ≠ Q2Qc 0).
Proof.
  intros Hm. cbv zeta.
  destruct (solve_for_incumbent_returns verbose x) as [e1 Hsolve].
  destruct (with_solvers_fields x) as (_ & _ & Hmod & Hls & Hcomm).
  set (x1 := with_models (alter_all solved (local_subproblems x)) (with_solvers x)) in *.
  assert (Hm1 : ∀ k, k ∈ local_scenarios x1 → is_Some (models x1 !! k)).
  { intros k Hk. apply alter_all_is_Some. rewrite Hmod. apply Hm.
    rewrite <- Hls. exact Hk. }
  pose proof (infeas_prob_run x1 Hm1) as Hinf.
  assert (Hcomm1 : mpicomm x1 = mpicomm x) by exact Hcomm.
  rewrite Hcomm1 in Hinf.
  destruct (incumbent_is_absent_iff_infeasible_general false verbose x _ _ _ _ _
              Hsolve Hinf) as (Hne & Heq & Hiff).
  set (p := (infeasible_probability x1 + default (Q2Qc 0) (head (mpicomm x)))%Qc) in *.
  destruct (decide (p = Q2Qc 0)) as [Hp|Hp].
  - set (x2 := set_mpicomm (tail (mpicomm x)) x1) in *.
    assert (HE : ∃ e x3 e3, Eobjective verbose None x2 = (Ret e, x3, e3)).
    { unfold Eobjective.
      do 3 eexists.
      eapply run_bind; [apply lazy_create_again, with_solvers_created| |reflexivity].
      cbv beta iota.
      eapply run_bind; [apply base_Eobjective_run; exact Hm1| |reflexivity].
      reflexivity. }
    destruct HE as (e & x3 & e3 & HE).
    exists (Some e). rewrite (Heq Hp _ _ _ HE).
    split; [reflexivity|]. split; [discriminate|]. intros H. destruct (H Hp).
  - exists None. rewrite (Hne Hp). split; [reflexivity|]. split; [intros _; exact Hp|reflexivity].
Qed.

End XhatSpec.
